(** * ezrecords: an indexed binary record store

    A shallow embedding of [src/core.py]: the index file ([IndexFile]), the
    bulk builder ([make_dataset]) and the random-access dataset
    ([IndexedRecordDataset]), over an explicit model of the file system,
    followed by the properties of the storage format. *)

From Stdlib Require Import ZArith List Lia.
From Stdlib Require Import Strings.Byte.
From Stdlib Require Import Strings.Ascii.
From stdpp Require Import gmap strings list.

Local Open Scope Z_scope.

(** * Bytes and [struct.pack("<Q", _)] *)

Definition byte_of_Z (z : Z) : byte :=
  default x00 (Byte.of_N (Z.to_N (z mod 256))).

Definition Z_of_byte (b : byte) : Z := Z.of_N (Byte.to_N b).

(** [w] bytes of [z], least significant first. *)
Fixpoint le_bytes (w : nat) (z : Z) : list byte :=
  match w with
  | O => []
  | S w' => byte_of_Z z :: le_bytes w' (z / 256)
  end.

Fixpoint le_value (bs : list byte) : Z :=
  match bs with
  | [] => 0
  | b :: bs' => Z_of_byte b + 256 * le_value bs'
  end.

(** Python exceptions raised by the modelled code. An [AssertionError]
    carries the message of the [assert] statement, if it has one. *)
Inductive exn : Type :=
  | AssertionError (msg : option string)
  | FileNotFoundError
  | StructError
  | OSError
  | OverflowError
  | IndexError
  | TypeError.

Definition Q_MAX : Z := 2 ^ 64.

(** [sys.maxsize + 1]: the bound of [len()] results and of read sizes. *)
Definition SSIZE_MAX : Z := 2 ^ 63.

(** [struct.pack("<Q", n)]: fails outside of the unsigned 64-bit range. *)
Definition pack_Q (n : Z) : exn + list byte :=
  if (0 <=? n) && (n <? Q_MAX) then inr (le_bytes 8 n) else inl StructError.

(** [struct.unpack("<Q", b)]: needs exactly eight bytes. *)
Definition unpack_Q (b : list byte) : exn + Z :=
  if (length b =? 8)%nat then inr (le_value b) else inl StructError.

(** [RESERVED_BYTES = struct.pack("<" + "x" * RESERVED_SPACE)] *)
Definition RESERVED_SPACE : nat := 1024.
Definition RESERVED_BYTES : list byte := replicate RESERVED_SPACE x00.

(** * The file system and the I/O monad

    A file system maps a path to the content of the regular file there.
    A computation threads the file system and may raise; what was written
    before the exception stays written. Writes are not buffered. *)

Abbreviation fsys := (gmap string (list byte)).

Definition IO (A : Type) : Type := fsys → fsys * (exn + A).

Definition ret {A} (a : A) : IO A := λ fs, (fs, inr a).

Definition raise {A} (e : exn) : IO A := λ fs, (fs, inl e).

Definition bind {A B} (m : IO A) (k : A → IO B) : IO B :=
  λ fs, match m fs with
        | (fs', inr a) => k a fs'
        | (fs', inl e) => (fs', inl e)
        end.

Notation "'let*' x ':=' m 'in' k" := (bind m (λ x, k))
  (at level 10, x pattern, m at level 100, k at level 200).

Definition lift {A} (r : exn + A) : IO A := λ fs, (fs, r).

(** [assert c, msg] *)
Definition py_assert (c : bool) (msg : option string) : IO unit :=
  if c then ret tt else raise (AssertionError msg).

Fixpoint mapM {A B} (f : A → IO B) (l : list A) : IO (list B) :=
  match l with
  | [] => ret []
  | a :: l' => let* b := f a in let* bs := mapM f l' in ret (b :: bs)
  end.

Fixpoint foldM {A S} (f : S → A → IO S) (s : S) (l : list A) : IO S :=
  match l with
  | [] => ret s
  | a :: l' => let* s' := f s a in foldM f s' l'
  end.

(** ** File objects *)

Record handle : Type := Handle {
  h_path : string;
  h_pos : nat;
  h_append : bool
}.

Definition content (fs : fsys) (p : string) : list byte :=
  default [] (fs !! p).

(** [os.path.isfile(p)] *)
Definition isfile (p : string) : IO bool :=
  λ fs, (fs, inr (bool_decide (is_Some (fs !! p)))).

(** [open(p, "wb")]: creates or truncates. *)
Definition open_wb (p : string) : IO handle :=
  λ fs, (<[p := []]> fs, inr (Handle p 0 false)).

(** [open(p, "rb")] and [open(p, "rb+")]: the file must exist. *)
Definition open_rb (p : string) : IO handle :=
  λ fs, match fs !! p with
        | Some _ => (fs, inr (Handle p 0 false))
        | None => (fs, inl FileNotFoundError)
        end.

Definition open_rb_plus (p : string) : IO handle := open_rb p.

(** [open(p, "a+b")]: creates the file if needed; every write goes to the
    end of the file. *)
Definition open_ab (p : string) : IO handle :=
  λ fs, match fs !! p with
        | Some c => (fs, inr (Handle p (length c) true))
        | None => (<[p := []]> fs, inr (Handle p 0 true))
        end.

(** [io.seek(z)] *)
Definition seek (h : handle) (z : Z) : IO handle :=
  if z <? 0 then raise OSError
  else ret (Handle (h_path h) (Z.to_nat z) (h_append h)).

(** [io.seek(z, SEEK_END)] *)
Definition seek_end (h : handle) (z : Z) : IO handle :=
  λ fs, seek h (Z.of_nat (length (content fs (h_path h))) + z) fs.

(** [io.tell()] *)
Definition tell (h : handle) : Z := Z.of_nat (h_pos h).

(** [io.read(n)]: at most [n] bytes from the position on; fewer at the end
    of the file. *)
Definition read (h : handle) (n : Z) : IO (list byte * handle) :=
  λ fs,
    if SSIZE_MAX <=? n then (fs, inl OverflowError)
    else
      let rest := drop (h_pos h) (content fs (h_path h)) in
      let data := if n <? 0 then rest else take (Z.to_nat n) rest in
      (fs, inr (data, Handle (h_path h) (h_pos h + length data) (h_append h))).

(** The content of a file after [data] is written at position [pos]: a gap
    between the end of the file and [pos] is filled with zero bytes. *)
Definition write_at (c : list byte) (pos : nat) (data : list byte) : list byte :=
  take pos c ++ replicate (pos - length c) x00 ++ data
    ++ drop (pos + length data) c.

(** [io.write(data)] *)
Definition write (h : handle) (data : list byte) : IO handle :=
  λ fs,
    let c := content fs (h_path h) in
    let pos := if h_append h then length c else h_pos h in
    (<[h_path h := write_at c pos data]> fs,
     inr (Handle (h_path h) (pos + length data) (h_append h))).

(** [io.truncate()]: cuts (or pads) the file at the position. *)
Definition truncate (h : handle) : IO unit :=
  λ fs,
    let c := content fs (h_path h) in
    (<[h_path h := take (h_pos h) c ++ replicate (h_pos h - length c) x00]> fs,
     inr tt).

(** [for b in bs: io.write(b)] *)
Definition write_all (h : handle) (bs : list (list byte)) : IO handle :=
  foldM write h bs.

(** * [IndexFile] *)

Module IndexFile.

(** [len(self)] goes through the builtin [len], which refuses a result
    that does not fit a signed machine word. *)
Definition py_len (n : Z) : IO Z :=
  if n <? SSIZE_MAX then ret n else raise OverflowError.

(** [IndexFile.__len__] *)
Definition __len__ (path : string) : IO Z :=
  let* there := isfile path in
  if negb there then ret 0
  else
    let* io := open_rb path in
    let* io := seek io 0 in
    let* (buf, io) := read io 8 in
    let* n := lift (unpack_Q buf) in
    ret n.

Definition len (path : string) : IO Z :=
  let* n := __len__ path in py_len n.

(** [IndexFile.__getitem__] *)
Definition __getitem__ (path : string) (idx : Z) : IO Z :=
  let* n := len path in
  let* _ := py_assert (idx <? n) None in
  let* io := open_rb path in
  let* io := seek io ((idx + 1) * 8) in
  let* (buf, io) := read io 8 in
  let* offset := lift (unpack_Q buf) in
  ret offset.

(** [IndexFile.append] *)
Definition append (path : string) (idx : Z) : IO unit :=
  let* n := len path in
  let* io := if n =? 0 then open_wb path else open_rb_plus path in
  let* io := seek io 0 in
  let* b := lift (pack_Q (n + 1)) in
  let* io := write io b in
  let* io := seek_end io 0 in
  let* b := lift (pack_Q idx) in
  let* io := write io b in
  ret tt.

(** [IndexFile.quick_remove_at] *)
Definition quick_remove_at (path : string) (i : Z) : IO unit :=
  let* n := len path in
  let* f := open_rb_plus path in
  let* f := seek_end f (-8) in
  let* (buffer, f) := read f 8 in
  let* f := seek_end f (-8) in
  let* _ := truncate f in
  let* f := if i <? n - 1
            then let* f := seek f (8 * (i + 1)) in write f buffer
            else ret f in
  let* f := seek f 0 in
  let* b := lift (pack_Q (n - 1)) in
  let* f := write f b in
  ret tt.

(** [IndexFile.__setitem__] *)
Definition __setitem__ (path : string) (i v : Z) : IO unit :=
  let* f := open_rb_plus path in
  let* f := seek f (8 * (i + 1)) in
  let* b := lift (pack_Q v) in
  let* f := write f b in
  ret tt.

(** [IndexFile.__iter__]: the range is fixed when the iteration starts,
    each offset is read when it is asked for. *)
Definition __iter__ (path : string) : IO (list (IO Z)) :=
  let* n := len path in
  ret (map (λ i, __getitem__ path (Z.of_nat i)) (seq 0 (Z.to_nat n))).

(** [IndexFile.write]. It comes last in this module, so that [write] is
    the method of the file object in the definitions above. *)
Definition write (path : string) (offsets : list Z) : IO unit :=
  let* io := open_wb path in
  let n := Z.of_nat (length offsets) in
  let* n_bin := lift (pack_Q n) in
  let* io := write io n_bin in
  let* _ := foldM (λ io offset,
                     let* b := lift (pack_Q offset) in write io b)
                  io offsets in
  ret tt.

End IndexFile.

(** * [os.path.splitext]

    The library function, as [posixpath] defines it: the extension starts
    at the last dot of the last path component, leading dots of that
    component apart. *)

Module os_path.

(** [s.rfind(c)]: the position of the last [c], or [-1]. *)
Fixpoint rfind_from (c : Ascii.ascii) (s : string) (i acc : Z) : Z :=
  match s with
  | EmptyString => acc
  | String a s' => rfind_from c s' (i + 1) (if Ascii.eqb a c then i else acc)
  end.

Definition rfind (c : Ascii.ascii) (s : string) : Z := rfind_from c s 0 (-1).

(** The [while filenameIndex < dotIndex] loop: is there a character
    other than a dot in the next [steps] positions? *)
Fixpoint has_non_dot (p : string) (filenameIndex steps : nat) : bool :=
  match steps with
  | O => false
  | S steps' =>
      match String.get filenameIndex p with
      | Some a =>
          if Ascii.eqb a "."%char then has_non_dot p (S filenameIndex) steps'
          else true
      | None => true
      end
  end.

(** The first component of [os.path.splitext(p)]. *)
Definition splitext (p : string) : string :=
  let sepIndex := rfind "/"%char p in
  let dotIndex := rfind "."%char p in
  if (sepIndex <? dotIndex)
     && has_non_dot p (Z.to_nat (sepIndex + 1))
                    (Z.to_nat (dotIndex - (sepIndex + 1)))
  then String.substring 0 (Z.to_nat dotIndex) p
  else p.

End os_path.

(** [os.path.splitext(output)[0] + ".idx"] unless a path is given. *)
Definition default_index_path (p : string) (index_path : option string) : string :=
  match index_path with
  | Some ip => ip
  | None => os_path.splitext p +:+ ".idx"
  end.

(** * Records and the builder *)

(** An iterable of records: starting the iteration fixes the pending
    items, each of which is computed when the loop asks for it. *)
Definition Iterable (V : Type) : Type := IO (list (IO (list V))).

(** An in-memory sequence. *)
Definition iter_list {V} (records : list (list V)) : Iterable V :=
  ret (map ret records).

(** [[serialize(items[i]) for i, serialize in enumerate(serializers)]] *)
Fixpoint serialize_items {V} (i : nat) (serializers : list (V → list byte))
    (items : list V) : IO (list (list byte)) :=
  match serializers with
  | [] => ret []
  | serialize :: rest =>
      match items !! i with
      | None => raise IndexError
      | Some v =>
          let* bs := serialize_items (S i) rest items in
          ret (serialize v :: bs)
      end
  end.

(** [[struct.pack("<Q", len(b)) for b in items_bin]] *)
Definition pack_headers (items_bin : list (list byte)) : IO (list (list byte)) :=
  mapM (λ b, lift (pack_Q (Z.of_nat (length b)))) items_bin.

(** [make_dataset] *)
Definition make_dataset {V} (record_iters : Iterable V) (output : string)
    (serializers : list (V → list byte)) (index_path : option string)
    : IO (string * string) :=
  let* io := open_wb output in
  let* io := write io RESERVED_BYTES in
  let* pending := record_iters in
  let* (io, indices) :=
    foldM (λ '(io, indices) next_items,
             let* items := next_items in
             let* items_bin := serialize_items 0 serializers items in
             let* headers_bin := pack_headers items_bin in
             let indices := indices ++ [tell io] in
             let* io := write_all io headers_bin in
             let* io := write_all io items_bin in
             ret (io, indices))
          (io, []) pending in
  let index_path := default_index_path output index_path in
  let* _ := IndexFile.write index_path indices in
  ret (output, index_path).

(** * [IndexedRecordDataset]

    [R] is the type of the values the deserializers produce, [W] the type
    of the values the serializers take. *)

Record IndexedRecordDataset (R W : Type) : Type := Dataset {
  path : string;
  deserializers : option (list (list byte → R));
  serializers : option (list (W → list byte));
  index : string
}.

Arguments Dataset {R W}.
Arguments path {R W}.
Arguments deserializers {R W}.
Arguments serializers {R W}.
Arguments index {R W}.

Definition NEED_DESERIALIZERS : string :=
  "You need de-serializers for reading the data".

Definition NEED_SERIALIZERS : string :=
  "You need serializers for reading the data".

Section Dataset.
Context {R W : Type}.

(** [IndexedRecordDataset.__init__] *)
Definition __init__ (path : string)
    (deserializers : option (list (list byte → R)))
    (serializers : option (list (W → list byte)))
    (index_path : option string) : IndexedRecordDataset R W :=
  Dataset path deserializers serializers (default_index_path path index_path).

Implicit Type self : IndexedRecordDataset R W.

(** [IndexedRecordDataset.__len__], through the builtin [len] *)
Definition __len__ self : IO Z :=
  let* n := IndexFile.len (index self) in IndexFile.py_len n.

(** [IndexedRecordDataset.quick_remove_at] *)
Definition quick_remove_at self (i : Z) : IO unit :=
  IndexFile.quick_remove_at (index self) i.

(** [[struct.unpack("<Q", io.read(8))[0] for _ in range(N)]] *)
Fixpoint read_lens (io : handle) (N : nat) : IO (list Z * handle) :=
  match N with
  | O => ret ([], io)
  | S N' =>
      let* (b, io) := read io 8 in
      let* n := lift (unpack_Q b) in
      let* (ns, io) := read_lens io N' in
      ret (n :: ns, io)
  end.

(** [[deserializers[i](io.read(n)) for i, n in enumerate(lens)]] *)
Fixpoint read_items (io : handle) (deserializers : list (list byte → R))
    (i : nat) (lens : list Z) : IO (list R * handle) :=
  match lens with
  | [] => ret ([], io)
  | n :: lens' =>
      match deserializers !! i with
      | None => raise IndexError
      | Some deserialize =>
          let* (b, io) := read io n in
          let* (xs, io) := read_items io deserializers (S i) lens' in
          ret (deserialize b :: xs, io)
      end
  end.

(** The body of [__getitem__] once the offset is known. *)
Definition read_record_at (path : string)
    (deserializers : list (list byte → R)) (offset : Z) : IO (list R) :=
  let N := length deserializers in
  let* io := open_rb path in
  let* io := seek io offset in
  let* (lens, io) := read_lens io N in
  let* (items, io) := read_items io deserializers 0 lens in
  ret items.

(** [IndexedRecordDataset.__getitem__] *)
Definition __getitem__ self (idx : Z) : IO (list R) :=
  match deserializers self with
  | None => raise (AssertionError (Some NEED_DESERIALIZERS))
  | Some deserializers =>
      let* offset := IndexFile.__getitem__ (index self) idx in
      read_record_at (path self) deserializers offset
  end.

(** [IndexedRecordDataset.__iter__] *)
Definition __iter__ self : Iterable R :=
  let* n := __len__ self in
  ret (map (λ i, __getitem__ self (Z.of_nat i)) (seq 0 (Z.to_nat n))).

(** [IndexedRecordDataset.append] *)
Definition append self (items : list W) : IO unit :=
  let* there := isfile (path self) in
  let* reset := if negb there then ret true
                else let* n := __len__ self in ret (n =? 0) in
  let* _ := if reset : bool
            then let* io := open_wb (path self) in
                 let* io := write io RESERVED_BYTES in ret tt
            else ret tt in
  match serializers self with
  | None => raise (AssertionError (Some NEED_SERIALIZERS))
  | Some serializers =>
      let* items_bin := serialize_items 0 serializers items in
      let* headers_bin := pack_headers items_bin in
      let* io := open_ab (path self) in
      let* io := seek_end io 0 in
      let idx := tell io in
      let* _ := IndexFile.append (index self) idx in
      let* io := write_all io headers_bin in
      let* io := write_all io items_bin in
      ret tt
  end.

End Dataset.

(** [IndexedRecordDataset.defrag]: the copy of the handle reads the raw
    payloads, which the builder writes back as they are. *)
Definition defrag {R W} (self : IndexedRecordDataset R W) (output_file : string)
    : IO (string * string) :=
  match deserializers self with
  | None => raise TypeError
  | Some ds =>
      let ref_data : IndexedRecordDataset (list byte) W :=
        Dataset (path self) (Some (map (λ _ x, x) ds))
                (serializers self) (index self) in
      let serializers := map (λ _ (x : list byte), x) ds in
      make_dataset (__iter__ ref_data) output_file serializers None
  end.

(** * The storage format, as data

    The functions below describe what the files hold; the theorems relate
    them to what the code writes and reads. *)

(** A sequence of 64-bit words, eight bytes each, least significant
    byte first. *)
Definition encode_words (ws : list Z) : list byte :=
  concat (map (le_bytes 8) ws).

(** The index file of the offsets [offs]: their count, then the offsets. *)
Definition index_file (offs : list Z) : list byte :=
  encode_words (Z.of_nat (length offs) :: offs).

(** A word that [struct.pack("<Q", _)] accepts. *)
Definition is_u64 (z : Z) : Prop := 0 ≤ z < Q_MAX.

(** What [IndexFile.quick_remove_at] leaves of a sequence: the last
    element takes the place of the [i]-th, unless [i] is the last position
    or not a position at all. *)
Definition swap_remove {A} (d : A) (i : Z) (l : list A) : list A :=
  let n := length l in
  let front := take (n - 1) l in
  if (0 <=? i) && (i <? Z.of_nat n - 1)
  then <[Z.to_nat i := default d (last l)]> front
  else front.

(** The block of a record whose encoded fields are [payloads]: the lengths
    of the fields, then the fields. *)
Definition encode_block (payloads : list (list byte)) : list byte :=
  encode_words (map (λ b, Z.of_nat (length b)) payloads) ++ concat payloads.

(** The record log that holds [blocks], in this order. *)
Definition log_file (blocks : list (list (list byte))) : list byte :=
  RESERVED_BYTES ++ concat (map encode_block blocks).

(** Where the [j]-th block of the log begins. *)
Definition block_offset (blocks : list (list (list byte))) (j : nat) : Z :=
  Z.of_nat (length (log_file (take j blocks))).

(** A record, field by field through the serializers. *)
Definition encode_record {V} (serializers : list (V → list byte))
    (items : list V) : list (list byte) :=
  zip_with (λ f v, f v) serializers items.

Definition decode_record {R} (deserializers : list (list byte → R))
    (payloads : list (list byte)) : list R :=
  zip_with (λ f b, f b) deserializers payloads.

(** What [append] finds in the log once it has decided whether to start
    the log anew: the reserved bytes if there was no log or if the index
    lists nothing, the log as it was otherwise. *)
Definition log_base (fs : fsys) (log : string) (offs : list Z) : list byte :=
  match fs !! log with
  | Some c => if bool_decide (offs = []) then RESERVED_BYTES else c
  | None => RESERVED_BYTES
  end.

(** The index file holds the offsets [offs]; it may be missing when there
    are none. *)
Definition index_holds (fs : fsys) (idx : string) (offs : list Z) : Prop :=
  Z.of_nat (length offs) < SSIZE_MAX
  ∧ (fs !! idx = Some (index_file offs) ∨ (fs !! idx = None ∧ offs = [])).

(** A well-formed pair of files: the log holds [blocks], each of [k]
    fields, and the index lists the offsets of the blocks [live], each
    at most once; both files are of a size that fits a signed word. *)
Record pair_ok (k : nat) (fs : fsys) (log idx : string)
    (blocks : list (list (list byte))) (live : list nat) : Prop := PairOk {
  ok_paths : log ≠ idx;
  ok_log : fs !! log = Some (log_file blocks);
  ok_arity : Forall (λ ps : list (list byte), length ps = k) blocks;
  ok_index : fs !! idx = Some (index_file (map (block_offset blocks) live));
  ok_live : Forall (λ j, (j < length blocks)%nat) live;
  ok_nodup : NoDup live;
  ok_size : Z.of_nat (length (log_file blocks)) < SSIZE_MAX;
  ok_count : Z.of_nat (length live) < SSIZE_MAX
}.

(** The blocks that [append] keeps in the log: none once the index
    lists nothing. *)
Definition kept_blocks (blocks : list (list (list byte))) (live : list nat)
    : list (list (list byte)) :=
  if bool_decide (live = []) then [] else blocks.

(** The [j]-th block of the log, and its size. *)
Definition block_at (blocks : list (list (list byte))) (j : nat) : list (list byte) :=
  default [] (blocks !! j).

Definition block_size (blocks : list (list (list byte))) (j : nat) : nat :=
  length (encode_block (block_at blocks j)).

(** The blocks the index lists, in the order of the index. *)
Definition live_blocks (blocks : list (list (list byte))) (live : list nat)
    : list (list (list byte)) :=
  map (block_at blocks) live.

(** The bytes of the blocks that the index does not list. *)
Definition orphaned_bytes (blocks : list (list (list byte))) (live : list nat) : nat :=
  sum_list_with (block_size blocks)
                (filter (λ j, j ∉ live) (seq 0 (length blocks))).

(** Each field of the record [r] is one that its deserializer brings
    back from what its serializer made of it. *)
Definition field_inverse {V} (encs : list (V → list byte))
    (decs : list (list byte → V)) (r : list V) : Prop :=
  ∀ i e d v, encs !! i = Some e → decs !! i = Some d → r !! i = Some v →
             d (e v) = v.

(** The invariant of the index: it holds its count and as many offsets,
    each below the size of the log and at the start of a block. *)
Definition index_invariant (fs : fsys) (log idx : string) : Prop :=
  ∃ blocks offs,
    fs !! log = Some (log_file blocks)
    ∧ fs !! idx = Some (index_file offs)
    ∧ Forall (λ o, o < Z.of_nat (length (log_file blocks))
                   ∧ ∃ j, (j < length blocks)%nat ∧ o = block_offset blocks j)
             offs.

(** ** The scenario of the specification: records of an integer and a
    string. The serializers are the caller's; they follow the words of
    the specification, an integer as eight bytes, least significant
    first, and a string as the bytes of its UTF-8 encoding, which is how
    a string value is held here. *)

Inductive value : Type :=
  | VInt (n : Z)
  | VStr (s : string).

Definition enc_int (v : value) : list byte :=
  match v with VInt n => le_bytes 8 n | VStr _ => [] end.

Definition dec_int (b : list byte) : value := VInt (le_value b).

Definition enc_str (v : value) : list byte :=
  match v with
  | VStr s => map byte_of_ascii (String.list_ascii_of_string s)
  | VInt _ => []
  end.

Definition dec_str (b : list byte) : value :=
  VStr (String.string_of_list_ascii (map ascii_of_byte b)).

Definition scenario_records : list (list value) :=
  [[VInt 1; VStr "a"]; [VInt 2; VStr "bb"]; [VInt 3; VStr "ccc"]].

Definition scenario_dataset : IndexedRecordDataset value value :=
  __init__ "data.bin" (Some [dec_int; dec_str]) (Some [enc_int; enc_str]) None.

(** The file system after the build, then after [quick_remove_at(0)]. *)
Definition scenario_built : fsys :=
  fst (make_dataset (iter_list scenario_records) "data.bin"
         [enc_int; enc_str] None ∅).

Definition scenario_removed : fsys :=
  fst (quick_remove_at scenario_dataset 0 scenario_built).

(** ** Consuming an iteration *)

(** [list(it)]: the pending items are computed one after the other. *)
Definition collect {A} (pending : list (IO A)) : IO (list A) :=
  mapM (λ next, next) pending.

(** * Bytes *)

Lemma Z_of_byte_of_Z (z : Z) : Z_of_byte (byte_of_Z z) = z mod 256.
Proof.
  unfold Z_of_byte, byte_of_Z.
  assert (Hr : 0 ≤ z mod 256 < 256) by (apply Z.mod_pos_bound; lia).
  destruct (Byte.of_N (Z.to_N (z mod 256))) as [b|] eqn:E.
  - apply Byte.to_of_N in E. simpl. rewrite E. lia.
  - apply Byte.of_N_None_iff in E. lia.
Qed.

Lemma Z_of_byte_range (b : byte) : 0 ≤ Z_of_byte b < 256.
Proof.
  unfold Z_of_byte. pose proof (Byte.to_N_bounded b). lia.
Qed.

Lemma length_le_bytes (w : nat) (z : Z) : length (le_bytes w z) = w.
Proof. revert z. induction w; intros z; simpl; [done | by rewrite IHw]. Qed.

Lemma le_value_le_bytes (w : nat) (z : Z) :
  0 ≤ z < 256 ^ Z.of_nat w → le_value (le_bytes w z) = z.
Proof.
  revert z. induction w as [|w IH]; intros z Hz.
  - simpl in *. lia.
  - cbn [le_bytes le_value]. rewrite Z_of_byte_of_Z.
    rewrite Nat2Z.inj_succ, Z.pow_succ_r in Hz by lia.
    rewrite IH.
    + pose proof (Z.div_mod z 256). lia.
    + split; [apply Z.div_pos; lia | apply Z.div_lt_upper_bound; lia].
Qed.

Lemma le_value_range (bs : list byte) :
  0 ≤ le_value bs < 256 ^ Z.of_nat (length bs).
Proof.
  induction bs as [|b bs IH]; cbn [le_value length].
  - simpl. lia.
  - rewrite Nat2Z.inj_succ, Z.pow_succ_r by lia.
    pose proof (Z_of_byte_range b). lia.
Qed.

Lemma pack_Q_u64 (n : Z) : is_u64 n → pack_Q n = inr (le_bytes 8 n).
Proof.
  intros [H0 H1]. unfold pack_Q.
  destruct (Z.leb_spec 0 n); [|lia]. destruct (Z.ltb_spec n Q_MAX); [done|lia].
Qed.


Lemma unpack_Q_le_bytes (n : Z) : is_u64 n → unpack_Q (le_bytes 8 n) = inr n.
Proof.
  intros H. unfold unpack_Q. rewrite length_le_bytes. simpl Nat.eqb. cbv iota.
  f_equal. apply le_value_le_bytes. exact H.
Qed.

Lemma ssize_u64 (z : Z) : 0 ≤ z < SSIZE_MAX → is_u64 z.
Proof. unfold is_u64, SSIZE_MAX, Q_MAX. lia. Qed.

(** * Word arrays and file contents *)

Lemma encode_words_app (a b : list Z) :
  encode_words (a ++ b) = encode_words a ++ encode_words b.
Proof. unfold encode_words. by rewrite map_app, concat_app. Qed.

Lemma encode_words_cons (w : Z) (ws : list Z) :
  encode_words (w :: ws) = le_bytes 8 w ++ encode_words ws.
Proof. reflexivity. Qed.

Lemma length_encode_words (ws : list Z) :
  length (encode_words ws) = (8 * length ws)%nat.
Proof.
  induction ws as [|w ws IH]; [done|].
  rewrite encode_words_cons, length_app, length_le_bytes, IH. simpl. lia.
Qed.


Lemma drop_encode_words (j : nat) (ws : list Z) :
  drop (8 * j) (encode_words ws) = encode_words (drop j ws).
Proof.
  revert j. induction ws as [|w ws IH]; intros j.
  - change (encode_words []) with (@nil byte). by rewrite !drop_nil.
  - destruct j as [|j]; [done|].
    rewrite encode_words_cons. cbn [drop].
    replace (8 * S j)%nat with (length (le_bytes 8 w) + 8 * j)%nat
      by (rewrite length_le_bytes; lia).
    by rewrite drop_app_add, IH.
Qed.

(** The [j]-th word of an array is what a read of eight bytes at [8 * j]
    returns. *)
Lemma read_word (j : nat) (ws : list Z) (w : Z) (rest : list byte) :
  ws !! j = Some w →
  take 8 (drop (8 * j) (encode_words ws ++ rest)) = le_bytes 8 w.
Proof.
  intros Hj.
  assert (Hlt : (j < length ws)%nat) by (eapply lookup_lt_Some; eauto).
  rewrite drop_app_le by (rewrite length_encode_words; lia).
  rewrite drop_encode_words.
  rewrite (drop_S _ _ _ Hj), encode_words_cons, <- app_assoc.
  by apply take_app_length'; rewrite length_le_bytes.
Qed.

Lemma write_at_end (c data : list byte) :
  write_at c (length c) data = c ++ data.
Proof.
  unfold write_at. rewrite firstn_all, Nat.sub_diag. simpl.
  rewrite drop_ge by lia. by rewrite app_nil_r.
Qed.

Lemma write_at_middle (a b b' c : list byte) :
  length b = length b' →
  write_at (a ++ b ++ c) (length a) b' = a ++ b' ++ c.
Proof.
  intros Hl. unfold write_at.
  rewrite take_app_length.
  replace (length a - length (a ++ b ++ c))%nat with 0%nat
    by (rewrite length_app; lia).
  simpl. rewrite drop_app_add. rewrite <- Hl. by rewrite drop_app_length.
Qed.

(** Overwriting the [j]-th word of an array. *)
Lemma write_word (j : nat) (ws : list Z) (v : Z) :
  (j < length ws)%nat →
  write_at (encode_words ws) (8 * j) (le_bytes 8 v)
  = encode_words (<[j := v]> ws).
Proof.
  intros Hj.
  destruct (lookup_lt_is_Some_2 ws j Hj) as [w Hw].
  rewrite insert_take_drop by done.
  rewrite <- (take_drop_middle ws j w Hw) at 1.
  rewrite !encode_words_app, !encode_words_cons.
  replace (8 * j)%nat with (length (encode_words (take j ws))).
  - apply write_at_middle. by rewrite !length_le_bytes.
  - rewrite length_encode_words, length_take. lia.
Qed.

Lemma write_word_end (ws : list Z) (v : Z) :
  write_at (encode_words ws) (8 * length ws) (le_bytes 8 v)
  = encode_words (ws ++ [v]).
Proof.
  rewrite <- length_encode_words, write_at_end, encode_words_app.
  reflexivity.
Qed.

(** * The I/O monad *)

Lemma bind_inr {A B} (m : IO A) (k : A → IO B) (fs fs' : fsys) a :
  m fs = (fs', inr a) → bind m k fs = k a fs'.
Proof. intros H. unfold bind. by rewrite H. Qed.

Lemma bind_inl {A B} (m : IO A) (k : A → IO B) (fs fs' : fsys) e :
  m fs = (fs', inl e) → bind m k fs = (fs', inl e).
Proof. intros H. unfold bind. by rewrite H. Qed.

Lemma content_lookup (fs : fsys) p c : fs !! p = Some c → content fs p = c.
Proof. intros H. unfold content. by rewrite H. Qed.

Lemma content_insert (fs : fsys) p c : content (<[p := c]> fs) p = c.
Proof. unfold content. by rewrite lookup_insert_eq. Qed.


Lemma isfile_Some (fs : fsys) p c :
  fs !! p = Some c → isfile p fs = (fs, inr true).
Proof. intros H. unfold isfile. rewrite bool_decide_true; eauto. Qed.

Lemma isfile_None (fs : fsys) p :
  fs !! p = None → isfile p fs = (fs, inr false).
Proof.
  intros H. unfold isfile. rewrite bool_decide_false; [done|].
  rewrite H. by intros [? ?].
Qed.

Lemma open_rb_Some (fs : fsys) p c :
  fs !! p = Some c → open_rb p fs = (fs, inr (Handle p 0 false)).
Proof. intros H. unfold open_rb. by rewrite H. Qed.

Lemma seek_nonneg h z (fs : fsys) :
  0 ≤ z → seek h z fs = (fs, inr (Handle (h_path h) (Z.to_nat z) (h_append h))).
Proof. intros H. unfold seek. destruct (Z.ltb_spec z 0); [lia|done]. Qed.

Lemma read_some p pos a n (fs : fsys) (c : list byte) :
  fs !! p = Some c → 0 ≤ n < SSIZE_MAX →
  read (Handle p pos a) n fs
  = (fs, inr (take (Z.to_nat n) (drop pos c),
              Handle p (pos + length (take (Z.to_nat n) (drop pos c))) a)).
Proof.
  intros Hc [H0 H1]. unfold read. cbn [h_path h_pos h_append].
  destruct (Z.leb_spec SSIZE_MAX n); [lia|].
  destruct (Z.ltb_spec n 0); [lia|].
  by rewrite (content_lookup _ _ _ Hc).
Qed.

Lemma write_plain p pos data (fs : fsys) :
  write (Handle p pos false) data fs
  = (<[p := write_at (content fs p) pos data]> fs,
     inr (Handle p (pos + length data) false)).
Proof. reflexivity. Qed.

(** Writing a sequence of chunks at the end of a file appends them all. *)
Lemma write_all_end p a (chunks : list (list byte)) (fs : fsys) (c : list byte) :
  fs !! p = Some c →
  write_all (Handle p (length c) a) chunks fs
  = (<[p := c ++ concat chunks]> fs,
     inr (Handle p (length (c ++ concat chunks)) a)).
Proof.
  intros Hc. revert fs c Hc.
  induction chunks as [|d chunks IH]; intros fs c Hc.
  - unfold write_all. cbn [foldM concat]. unfold ret.
    by rewrite app_nil_r, insert_id.
  - unfold write_all in *. cbn [foldM]. unfold bind at 1.
    assert (Hw : write (Handle p (length c) a) d fs
                 = (<[p := c ++ d]> fs, inr (Handle p (length (c ++ d)) a))).
    { unfold write. cbn [h_path h_pos h_append].
      rewrite (content_lookup _ _ _ Hc).
      replace (if a then length c else length c) with (length c)
        by (by destruct a).
      by rewrite write_at_end, length_app. }
    rewrite Hw.
    rewrite (IH (<[p := c ++ d]> fs) (c ++ d)) by apply lookup_insert_eq.
    rewrite insert_insert_eq. cbn [concat]. by rewrite !app_assoc.
Qed.

Ltac io_simpl :=
  cbv beta iota; cbn [h_path h_pos h_append fst snd negb].

Ltac io_step tac := erewrite bind_inr by tac; io_simpl.

(** * [IndexFile] on a file of words *)

(** Opening a file of words, seeking to the [j]-th and unpacking it. *)
Lemma read_word_at (p : string) (fs : fsys) ws rest (z : Z) (j : nat) (w : Z) :
  fs !! p = Some (encode_words ws ++ rest) →
  ws !! j = Some w → is_u64 w → z = Z.of_nat (8 * j) →
  (let* io := open_rb p in
   let* io := seek io z in
   let* (buf, io) := read io 8 in
   let* n := lift (unpack_Q buf) in
   ret n) fs = (fs, inr w).
Proof.
  intros Hc Hj Hw ->.
  io_step ltac:(eapply open_rb_Some; eauto).
  io_step ltac:(apply seek_nonneg; lia).
  io_step ltac:(eapply read_some; [eauto | unfold SSIZE_MAX; lia]).
  rewrite Nat2Z.id. change (Z.to_nat 8) with 8%nat.
  rewrite (read_word j ws w rest Hj).
  unfold bind, lift. by rewrite unpack_Q_le_bytes.
Qed.

(** The count at the head of an index file. *)
Lemma len_head (p : string) (fs : fsys) (n : Z) (rest : list byte) :
  fs !! p = Some (le_bytes 8 n ++ rest) → 0 ≤ n < SSIZE_MAX →
  IndexFile.len p fs = (fs, inr n).
Proof.
  intros Hc Hn. unfold IndexFile.len, IndexFile.__len__.
  erewrite bind_inr; cycle 1.
  { io_step ltac:(eapply isfile_Some; eauto).
    eapply (read_word_at p fs [n] rest 0 0 n); eauto using ssize_u64. }
  unfold IndexFile.py_len. destruct (Z.ltb_spec n SSIZE_MAX); [done|lia].
Qed.

Lemma len_missing (p : string) (fs : fsys) :
  fs !! p = None → IndexFile.len p fs = (fs, inr 0).
Proof.
  intros Hc. unfold IndexFile.len, IndexFile.__len__.
  erewrite bind_inr; cycle 1.
  { io_step ltac:(eapply isfile_None; eauto). reflexivity. }
  reflexivity.
Qed.

Lemma len_index_file (p : string) (fs : fsys) (offs : list Z) :
  fs !! p = Some (index_file offs) →
  Z.of_nat (length offs) < SSIZE_MAX →
  IndexFile.len p fs = (fs, inr (Z.of_nat (length offs))).
Proof.
  intros Hc Hn. eapply len_head; [|lia].
  by rewrite Hc.
Qed.

(** Computations that only read leave the file system as it is. *)
Lemma bind_pure {A B} (m : IO A) (k : A → IO B) :
  (∀ fs, fst (m fs) = fs) → (∀ a fs, fst (k a fs) = fs) →
  ∀ fs, fst (bind m k fs) = fs.
Proof.
  intros Hm Hk fs. unfold bind. specialize (Hm fs).
  destruct (m fs) as [fs' [e|a]]; simpl in *; subst; [done | apply Hk].
Qed.

Lemma open_rb_pure p (fs : fsys) : fst (open_rb p fs) = fs.
Proof. unfold open_rb. by destruct (fs !! p). Qed.

Lemma seek_pure h z (fs : fsys) : fst (seek h z fs) = fs.
Proof. unfold seek. by destruct (z <? 0). Qed.

Lemma read_pure h n (fs : fsys) : fst (read h n fs) = fs.
Proof. unfold read. by destruct (SSIZE_MAX <=? n). Qed.

Lemma lift_pure {A} (r : exn + A) (fs : fsys) : fst (lift r fs) = fs.
Proof. reflexivity. Qed.

Lemma py_len_pure n (fs : fsys) : fst (IndexFile.py_len n fs) = fs.
Proof. unfold IndexFile.py_len. by destruct (n <? SSIZE_MAX). Qed.

Ltac pure_tac :=
  repeat first
    [ reflexivity
    | apply open_rb_pure | apply seek_pure | apply read_pure
    | apply lift_pure | apply py_len_pure
    | apply bind_pure; intros
    | match goal with
      | |- context [let '(_, _) := ?x in _] => destruct x
      | |- context [if ?x then _ else _] => destruct x
      | |- context [match ?x with Some _ => _ | None => _ end] => destruct x
      end ].

(** [len] never changes the file system. *)
Lemma len_pure (p : string) (fs : fsys) : fst (IndexFile.len p fs) = fs.
Proof. revert fs. unfold IndexFile.len, IndexFile.__len__. pure_tac. Qed.


Lemma getitem_index_file (p : string) (fs : fsys) (offs : list Z) (i : nat) (o : Z) :
  fs !! p = Some (index_file offs) →
  Z.of_nat (length offs) < SSIZE_MAX →
  offs !! i = Some o → is_u64 o →
  IndexFile.__getitem__ p (Z.of_nat i) fs = (fs, inr o).
Proof.
  intros Hc Hn Hi Ho. unfold IndexFile.__getitem__.
  io_step ltac:(eapply len_index_file; eauto).
  apply lookup_lt_Some in Hi as Hlt.
  destruct (Z.ltb_spec (Z.of_nat i) (Z.of_nat (length offs))); [|lia].
  unfold py_assert. io_step ltac:(reflexivity).
  apply (read_word_at p fs (Z.of_nat (length offs) :: offs) [] _ (S i) o).
  - by rewrite app_nil_r.
  - exact Hi.
  - exact Ho.
  - lia.
Qed.

(** The assertion of [__getitem__]. *)
Lemma getitem_out_of_range (p : string) (fs : fsys) (n idx : Z) :
  IndexFile.len p fs = (fs, inr n) → n ≤ idx →
  IndexFile.__getitem__ p idx fs = (fs, inl (AssertionError None)).
Proof.
  intros Hl Hge. unfold IndexFile.__getitem__.
  io_step ltac:(exact Hl).
  destruct (Z.ltb_spec idx n); [lia|]. reflexivity.
Qed.

(** [IndexFile.write] produces the index file of the offsets. *)
Lemma write_entries (p : string) (offs : list Z) (fs : fsys) (c : list byte) :
  fs !! p = Some c → Forall is_u64 offs →
  foldM (λ io offset, let* b := lift (pack_Q offset) in write io b)
        (Handle p (length c) false) offs fs
  = (<[p := c ++ encode_words offs]> fs,
     inr (Handle p (length (c ++ encode_words offs)) false)).
Proof.
  intros Hc Hu. revert fs c Hc.
  induction Hu as [|o offs Ho Hu IH]; intros fs c Hc.
  - cbn [foldM]. unfold ret. change (encode_words []) with (@nil byte).
    by rewrite app_nil_r, insert_id.
  - cbn [foldM].
    erewrite bind_inr; cycle 1.
    { unfold bind, lift. rewrite (pack_Q_u64 o Ho). apply write_plain. }
    rewrite (content_lookup _ _ _ Hc), write_at_end.
    replace (length c + length (le_bytes 8 o))%nat
      with (length (c ++ le_bytes 8 o)) by (by rewrite length_app).
    rewrite (IH _ (c ++ le_bytes 8 o)) by apply lookup_insert_eq.
    by rewrite insert_insert_eq, encode_words_cons, !app_assoc.
Qed.

Lemma write_offsets_spec (p : string) (offs : list Z) (fs : fsys) :
  Z.of_nat (length offs) < Q_MAX → Forall is_u64 offs →
  IndexFile.write p offs fs = (<[p := index_file offs]> fs, inr tt).
Proof.
  intros Hn Hu. unfold IndexFile.write.
  io_step ltac:(reflexivity).
  erewrite bind_inr; cycle 1.
  { unfold lift. rewrite pack_Q_u64; [reflexivity|]. unfold is_u64. lia. }
  io_step ltac:(apply write_plain).
  rewrite content_insert.
  change (write_at [] 0 ?d) with ([] ++ [] ++ d ++ drop (0 + length d) []).
  rewrite drop_nil, app_nil_r. cbn [app]. rewrite insert_insert_eq.
  erewrite bind_inr; cycle 1.
  { replace (0 + length (le_bytes 8 (Z.of_nat (length offs))))%nat
      with (length (le_bytes 8 (Z.of_nat (length offs)))) by lia.
    apply write_entries; [apply lookup_insert_eq | done]. }
  by rewrite insert_insert_eq.
Qed.

Lemma seek_end_some p pos a z (fs : fsys) (c : list byte) :
  fs !! p = Some c → 0 ≤ Z.of_nat (length c) + z →
  seek_end (Handle p pos a) z fs
  = (fs, inr (Handle p (Z.to_nat (Z.of_nat (length c) + z)) a)).
Proof.
  intros Hc Hz. unfold seek_end. cbn [h_path].
  rewrite (content_lookup _ _ _ Hc). by rewrite seek_nonneg.
Qed.

Lemma truncate_some p pos a (fs : fsys) (c : list byte) :
  fs !! p = Some c → (pos ≤ length c)%nat →
  truncate (Handle p pos a) fs = (<[p := take pos c]> fs, inr tt).
Proof.
  intros Hc Hle. unfold truncate. cbn [h_path h_pos].
  rewrite (content_lookup _ _ _ Hc).
  replace (pos - length c)%nat with 0%nat by lia.
  by rewrite app_nil_r.
Qed.

(** Overwriting a word of a file of words, through a plain handle. *)
Lemma write_word_io p (fs : fsys) (ws : list Z) (j : nat) (v : Z) :
  fs !! p = Some (encode_words ws) → (j < length ws)%nat →
  write (Handle p (8 * j) false) (le_bytes 8 v) fs
  = (<[p := encode_words (<[j := v]> ws)]> fs,
     inr (Handle p (8 * j + 8) false)).
Proof.
  intros Hc Hj. rewrite write_plain, (content_lookup _ _ _ Hc).
  by rewrite write_word, length_le_bytes.
Qed.

Lemma write_word_end_io p (fs : fsys) (ws : list Z) (v : Z) :
  fs !! p = Some (encode_words ws) →
  write (Handle p (8 * length ws) false) (le_bytes 8 v) fs
  = (<[p := encode_words (ws ++ [v])]> fs,
     inr (Handle p (8 * length ws + 8) false)).
Proof.
  intros Hc. rewrite write_plain, (content_lookup _ _ _ Hc).
  by rewrite write_word_end, length_le_bytes.
Qed.

(** [IndexFile.append] adds the offset at the end. The index file may
    be missing when there is no offset yet. *)
Lemma append_index_file (p : string) (fs : fsys) (offs : list Z) (v : Z) :
  fs !! p = Some (index_file offs) ∨ (fs !! p = None ∧ offs = []) →
  Z.of_nat (length offs) < SSIZE_MAX → is_u64 v →
  IndexFile.append p v fs = (<[p := index_file (offs ++ [v])]> fs, inr tt).
Proof.
  intros Hc Hn Hv. unfold IndexFile.append.
  io_step ltac:(destruct Hc as [Hc|[Hc ->]];
                [eapply len_index_file; eauto | apply len_missing, Hc]).
  assert (Hp : pack_Q (Z.of_nat (length offs) + 1)
               = inr (le_bytes 8 (Z.of_nat (length (offs ++ [v]))))).
  { rewrite pack_Q_u64; [|unfold is_u64, SSIZE_MAX, Q_MAX in *; lia].
    rewrite length_app. cbn [length]. do 2 f_equal. lia. }
  destruct (Z.eqb_spec (Z.of_nat (length offs)) 0) as [H0|H0].
  - (* the file is created anew *)
    assert (offs = []) as -> by (destruct offs; [done | simpl in H0; lia]).
    io_step ltac:(reflexivity).
    io_step ltac:(apply seek_nonneg; lia).
    erewrite bind_inr by (unfold lift; rewrite Hp; reflexivity).
    io_simpl.
    io_step ltac:(apply (write_word_end_io p _ [] 1); apply lookup_insert_eq).
    rewrite insert_insert_eq.
    io_step ltac:(eapply seek_end_some; [apply lookup_insert_eq | lia]).
    erewrite bind_inr by (unfold lift; rewrite (pack_Q_u64 v Hv); reflexivity).
    io_step ltac:(apply (write_word_end_io p _ [1] v); apply lookup_insert_eq).
    by rewrite insert_insert_eq.
  - destruct Hc as [Hc|[_ ->]]; [|done].
    io_step ltac:(eapply open_rb_Some; eauto).
    io_step ltac:(apply seek_nonneg; lia).
    erewrite bind_inr by (unfold lift; rewrite Hp; reflexivity).
    io_simpl.
    io_step ltac:(apply (write_word_io p fs (Z.of_nat (length offs) :: offs) 0);
                  [exact Hc | simpl; lia]).
    cbn [list_insert insert].
    io_step ltac:(eapply seek_end_some; [apply lookup_insert_eq | lia]).
    erewrite bind_inr by (unfold lift; rewrite (pack_Q_u64 v Hv); reflexivity).
    rewrite length_encode_words, Z.add_0_r, Nat2Z.id.
    io_step ltac:(apply write_word_end_io; apply lookup_insert_eq).
    rewrite insert_insert_eq. reflexivity.
Qed.

Lemma length_swap_remove {A} (d : A) (i : Z) (offs : list A) :
  length (swap_remove d i offs) = (length offs - 1)%nat.
Proof.
  unfold swap_remove.
  destruct ((0 <=? i) && (i <? Z.of_nat (length offs) - 1));
    rewrite ?length_insert, length_take; lia.
Qed.

(** [IndexFile.quick_remove_at] on a non-empty index file: the offsets
    that remain are those of [swap_remove]. *)
Lemma quick_remove_at_index_file (p : string) (fs : fsys) (offs : list Z) (i : Z) :
  fs !! p = Some (index_file offs) → offs ≠ [] →
  Z.of_nat (length offs) < SSIZE_MAX → -1 ≤ i →
  IndexFile.quick_remove_at p i fs
  = (<[p := index_file (swap_remove 0 i offs)]> fs, inr tt).
Proof.
  intros Hc Hne Hn Hi.
  destruct (exists_last Hne) as [front [lst ->]].
  rewrite length_app in Hn. cbn [length] in Hn.
  set (n := Z.of_nat (length (front ++ [lst]))).
  assert (Hnv : n = Z.of_nat (length front) + 1)
    by (unfold n; rewrite length_app; simpl; lia).
  assert (Hfile : index_file (front ++ [lst])
                  = encode_words (n :: front) ++ le_bytes 8 lst).
  { unfold index_file. fold n.
    change (n :: front ++ [lst]) with ((n :: front) ++ [lst]).
    by rewrite encode_words_app. }
  assert (Hlen : length (index_file (front ++ [lst]))
                 = (8 * S (length front) + 8)%nat).
  { rewrite Hfile, length_app, length_encode_words, length_le_bytes.
    simpl. lia. }
  unfold IndexFile.quick_remove_at.
  io_step ltac:(eapply len_index_file; [eauto | rewrite length_app; simpl; lia]).
  fold n.
  io_step ltac:(eapply open_rb_Some; eauto).
  io_step ltac:(eapply seek_end_some; [eauto | lia]).
  io_step ltac:(eapply read_some; [eauto | unfold SSIZE_MAX; lia]).
  io_step ltac:(eapply seek_end_some; [eauto | lia]).
  rewrite Hlen.
  replace (Z.to_nat (Z.of_nat (8 * S (length front) + 8) + -8))
    with (length (encode_words (n :: front)))
    by (rewrite length_encode_words; simpl; lia).
  io_step ltac:(eapply truncate_some; [eauto | rewrite Hlen, length_encode_words; simpl; lia]).
  rewrite Hfile, drop_app_length, take_app_length.
  change (Z.to_nat 8) with 8%nat.
  rewrite (take_ge (le_bytes 8 lst)) by (rewrite length_le_bytes; lia).
  assert (Hpack : pack_Q (n - 1) = inr (le_bytes 8 (Z.of_nat (length front)))).
  { rewrite pack_Q_u64; [f_equal; f_equal; lia|].
    unfold is_u64, SSIZE_MAX, Q_MAX in *. lia. }
  assert (Hfront : take (length (front ++ [lst]) - 1) (front ++ [lst]) = front).
  { rewrite length_app. cbn [length].
    replace (length front + 1 - 1)%nat with (length front) by lia.
    apply take_app_length. }
  assert (Hlast : default 0 (last (front ++ [lst])) = lst)
    by (by rewrite last_snoc).
  unfold swap_remove. rewrite Hfront, Hlast. fold n.
  destruct (Z.ltb_spec i (n - 1)) as [Hlt|Hge].
  - (* the last offset is written over position [i] (or over the count) *)
    erewrite bind_inr; cycle 1.
    { io_step ltac:(apply seek_nonneg; lia).
      replace (Z.to_nat (8 * (i + 1))) with (8 * Z.to_nat (i + 1))%nat by lia.
      apply (write_word_io p _ (n :: front) (Z.to_nat (i + 1)) lst);
        [apply lookup_insert_eq | simpl; lia]. }
    io_simpl. rewrite insert_insert_eq.
    io_step ltac:(apply seek_nonneg; lia).
    erewrite bind_inr by (unfold lift; rewrite Hpack; reflexivity).
    io_step ltac:(apply (write_word_io p _
                           (<[Z.to_nat (i + 1) := lst]> (n :: front)) 0);
                  [apply lookup_insert_eq | rewrite length_insert; simpl; lia]).
    rewrite insert_insert_eq. unfold ret. do 3 f_equal.
    unfold index_file.
    destruct (Z.leb_spec 0 i) as [H0|H0]; cbn [andb].
    + replace (Z.to_nat (i + 1)) with (S (Z.to_nat i)) by lia.
      cbn [list_insert insert]. rewrite length_insert. reflexivity.
    + replace (Z.to_nat (i + 1)) with 0%nat by lia. reflexivity.
  - rewrite andb_false_r.
    io_step ltac:(reflexivity).
    io_step ltac:(apply seek_nonneg; lia).
    erewrite bind_inr by (unfold lift; rewrite Hpack; reflexivity).
    io_step ltac:(apply (write_word_io p _ (n :: front) 0);
                  [apply lookup_insert_eq | simpl; lia]).
    rewrite insert_insert_eq. reflexivity.
Qed.

(** * Record blocks *)

Ltac pos_eq := do 4 f_equal; lia.

Lemma read_lens_words p a (fs : fsys) (lens : list Z) (pre rest : list byte) :
  fs !! p = Some (pre ++ encode_words lens ++ rest) →
  Forall is_u64 lens →
  read_lens (Handle p (length pre) a) (length lens) fs
  = (fs, inr (lens, Handle p (length pre + 8 * length lens) a)).
Proof.
  intros Hc Hu. revert pre Hc.
  induction Hu as [|n lens Hn Hu IH]; intros pre Hc.
  - cbn [read_lens length]. unfold ret. pos_eq.
  - cbn [read_lens length].
    io_step ltac:(eapply read_some; [eauto | unfold SSIZE_MAX; lia]).
    rewrite drop_app_length, encode_words_cons, <- app_assoc.
    change (Z.to_nat 8) with 8%nat.
    rewrite take_app_length' by (by rewrite length_le_bytes).
    erewrite bind_inr by (unfold lift; rewrite (unpack_Q_le_bytes n Hn); reflexivity).
    io_simpl. rewrite length_le_bytes.
    replace (length pre + 8)%nat with (length (pre ++ le_bytes 8 n))
      by (by rewrite length_app, length_le_bytes).
    erewrite bind_inr; cycle 1.
    { apply IH. rewrite Hc, encode_words_cons. by rewrite <- !app_assoc. }
    io_simpl. unfold ret. rewrite length_app, length_le_bytes.
    pos_eq.
Qed.

Lemma read_items_payloads {R} p a (fs : fsys) (decs : list (list byte → R))
    (ps : list (list byte)) (i : nat) (pre rest : list byte) :
  fs !! p = Some (pre ++ concat ps ++ rest) →
  Forall (λ b : list byte, Z.of_nat (length b) < SSIZE_MAX) ps →
  (i + length ps ≤ length decs)%nat →
  read_items (Handle p (length pre) a) decs i
             (map (λ b, Z.of_nat (length b)) ps) fs
  = (fs, inr (decode_record (drop i decs) ps,
              Handle p (length pre + length (concat ps)) a)).
Proof.
  intros Hc Hs. revert pre i Hc.
  induction Hs as [|b ps Hb Hs IH]; intros pre i Hc Hi.
  - cbn [map read_items concat length]. unfold ret, decode_record.
    rewrite zip_with_nil_r. pos_eq.
  - cbn [map read_items]. cbn [length] in Hi.
    destruct (lookup_lt_is_Some_2 decs i ltac:(lia)) as [d Hd].
    rewrite Hd.
    io_step ltac:(eapply read_some; [eauto | lia]).
    rewrite drop_app_length, Nat2Z.id. cbn [concat].
    rewrite <- app_assoc, take_app_length.
    replace (length pre + length b)%nat with (length (pre ++ b))
      by (by rewrite length_app).
    erewrite bind_inr; cycle 1.
    { apply (IH (pre ++ b) (S i)); [|lia].
      rewrite Hc. cbn [concat]. by rewrite <- !app_assoc. }
    io_simpl. unfold ret, decode_record.
    rewrite (drop_S _ _ _ Hd). cbn [zip_with]. rewrite !length_app.
    pos_eq.
Qed.

Lemma length_concat_elem (ps : list (list byte)) (b : list byte) :
  b ∈ ps → (length b ≤ length (concat ps))%nat.
Proof.
  induction 1 as [b ps|b b' ps _ IH]; cbn [concat]; rewrite length_app; lia.
Qed.

Lemma length_encode_block (ps : list (list byte)) :
  length (encode_block ps) = (8 * length ps + length (concat ps))%nat.
Proof.
  unfold encode_block. by rewrite length_app, length_encode_words, length_map.
Qed.

(** Reading the record whose block sits at [offset]. *)
Lemma read_record_block {R} (p : string) (fs : fsys)
    (decs : list (list byte → R)) (ps : list (list byte))
    (pre rest : list byte) :
  fs !! p = Some (pre ++ encode_block ps ++ rest) →
  Z.of_nat (length (pre ++ encode_block ps ++ rest)) < SSIZE_MAX →
  length ps = length decs →
  read_record_at p decs (Z.of_nat (length pre)) fs
  = (fs, inr (decode_record decs ps)).
Proof.
  intros Hc Hsz Hk.
  assert (Hps : Forall (λ b : list byte, Z.of_nat (length b) < SSIZE_MAX) ps).
  { apply Forall_forall. intros b Hb. apply length_concat_elem in Hb.
    rewrite !length_app, length_encode_block in Hsz. lia. }
  unfold read_record_at.
  io_step ltac:(eapply open_rb_Some; eauto).
  io_step ltac:(apply seek_nonneg; lia).
  rewrite Nat2Z.id, <- Hk.
  unfold encode_block in Hc. rewrite <- app_assoc in Hc.
  erewrite bind_inr; cycle 1.
  { rewrite <- (length_map (λ b : list byte, Z.of_nat (length b)) ps).
    eapply read_lens_words; [exact Hc|].
    apply Forall_forall. intros z Hz.
    apply list_elem_of_fmap in Hz as [b [-> Hb]].
    rewrite Forall_forall in Hps. specialize (Hps b Hb).
    unfold is_u64, SSIZE_MAX, Q_MAX in *. lia. }
  io_simpl.
  replace (length pre + 8 * length (map (λ b : list byte, Z.of_nat (length b)) ps))%nat
    with (length (pre ++ encode_words (map (λ b : list byte, Z.of_nat (length b)) ps)))
    by (by rewrite length_app, length_encode_words).
  erewrite bind_inr; cycle 1.
  { eapply (read_items_payloads p false fs decs ps 0 _ rest); [|done|lia].
    rewrite Hc. by rewrite <- !app_assoc. }
  io_simpl. reflexivity.
Qed.

(** * The builder *)

Lemma length_RESERVED_BYTES : length RESERVED_BYTES = 1024%nat.
Proof. unfold RESERVED_BYTES, RESERVED_SPACE. apply length_replicate. Qed.

Lemma log_file_nil : log_file [] = RESERVED_BYTES.
Proof. unfold log_file. cbn [map concat]. apply app_nil_r. Qed.

Lemma log_file_app (bs bs' : list (list (list byte))) :
  log_file (bs ++ bs') = log_file bs ++ concat (map encode_block bs').
Proof. unfold log_file. by rewrite map_app, concat_app, app_assoc. Qed.

Lemma log_file_snoc (bs : list (list (list byte))) (ps : list (list byte)) :
  log_file (bs ++ [ps]) = log_file bs ++ encode_block ps.
Proof. rewrite log_file_app. cbn [map concat]. by rewrite app_nil_r. Qed.

Lemma block_offset_app (bs bs' : list (list (list byte))) :
  block_offset (bs ++ bs') (length bs) = Z.of_nat (length (log_file bs)).
Proof. unfold block_offset. by rewrite take_app_length. Qed.

Lemma block_offset_app_l (bs bs' : list (list (list byte))) (j : nat) :
  (j ≤ length bs)%nat → block_offset (bs ++ bs') j = block_offset bs j.
Proof. intros H. unfold block_offset. by rewrite take_app_le. Qed.

(** The log up to and after the [j]-th block. *)
Lemma log_file_split (bs : list (list (list byte))) (j : nat) (ps : list (list byte)) :
  bs !! j = Some ps →
  log_file bs = log_file (take j bs) ++ encode_block ps
                ++ concat (map encode_block (drop (S j) bs)).
Proof.
  intros Hj. rewrite <- (take_drop_middle bs j ps Hj) at 1.
  rewrite log_file_app. by cbn [map concat].
Qed.

Lemma serialize_items_ok {V} (sers : list (V → list byte)) (items : list V)
    (i : nat) (fs : fsys) :
  (i + length sers ≤ length items)%nat →
  serialize_items i sers items fs = (fs, inr (encode_record sers (drop i items))).
Proof.
  revert i. induction sers as [|f sers IH]; intros i Hi.
  - reflexivity.
  - cbn [serialize_items]. cbn [length] in Hi.
    destruct (lookup_lt_is_Some_2 items i ltac:(lia)) as [v Hv].
    rewrite Hv. io_step ltac:(apply IH; lia).
    unfold ret, encode_record. by rewrite (drop_S _ _ _ Hv).
Qed.

Lemma serialize_items_short {V} (sers : list (V → list byte)) (items : list V)
    (i : nat) (fs : fsys) :
  (i ≤ length items < i + length sers)%nat →
  serialize_items i sers items fs = (fs, inl IndexError).
Proof.
  revert i. induction sers as [|f sers IH]; intros i Hi.
  - cbn [length] in Hi. lia.
  - cbn [serialize_items]. cbn [length] in Hi.
    destruct (items !! i) as [v|] eqn:Hv; [|done].
    erewrite bind_inl; [done|]. apply IH.
    apply lookup_lt_Some in Hv. lia.
Qed.

Lemma pack_headers_ok (items_bin : list (list byte)) (fs : fsys) :
  Forall (λ b : list byte, Z.of_nat (length b) < Q_MAX) items_bin →
  pack_headers items_bin fs
  = (fs, inr (map (λ b, le_bytes 8 (Z.of_nat (length b))) items_bin)).
Proof.
  unfold pack_headers. induction 1 as [|b bs Hb _ IH]; [done|].
  cbn [mapM map].
  erewrite bind_inr by (unfold lift; rewrite pack_Q_u64;
                        [reflexivity | unfold is_u64; lia]).
  io_step ltac:(exact IH). reflexivity.
Qed.

Lemma concat_headers (ps : list (list byte)) :
  concat (map (λ b, le_bytes 8 (Z.of_nat (length b))) ps) ++ concat ps
  = encode_block ps.
Proof. unfold encode_block, encode_words. by rewrite map_map. Qed.

Lemma payload_bound (ps : list (list byte)) (bound : Z) :
  Z.of_nat (length (encode_block ps)) < bound →
  Forall (λ b : list byte, Z.of_nat (length b) < bound) ps.
Proof.
  intros H. apply Forall_forall. intros b Hb.
  apply length_concat_elem in Hb. rewrite length_encode_block in H. lia.
Qed.

(** One block written at the end of the log. *)
Lemma write_block {B} (p : string) (a : bool) (fs : fsys) (c : list byte)
    (ps : list (list byte)) (k : handle → IO B) :
  fs !! p = Some c →
  (let* io := write_all (Handle p (length c) a)
                (map (λ b, le_bytes 8 (Z.of_nat (length b))) ps) in
   let* io := write_all io ps in
   k io) fs
  = k (Handle p (length (c ++ encode_block ps)) a)
      (<[p := c ++ encode_block ps]> fs).
Proof.
  intros Hc.
  io_step ltac:(apply write_all_end; exact Hc).
  io_step ltac:(apply write_all_end; apply lookup_insert_eq).
  by rewrite insert_insert_eq, <- app_assoc, concat_headers.
Qed.

Section Builder.
Context {V : Type}.
Variable output : string.
Variable sers : list (V → list byte).

(** What stays true of the rest of the file system while the log is
    written. *)
Variable Q : fsys → Prop.
Hypothesis Q_output : ∀ (fs : fsys) c, Q fs → Q (<[output := c]> fs).

Lemma build_loop (pending : list (IO (list V))) (records : list (list V)) :
  Forall2 (λ next r, ∀ fs, Q fs → next fs = (fs, inr r)) pending records →
  Forall (λ r, (length sers ≤ length r)%nat) records →
  ∀ (fs : fsys) blocks0 indices0,
    Q fs → fs !! output = Some (log_file blocks0) →
    Z.of_nat (length (log_file (blocks0 ++ map (encode_record sers) records)))
      < Q_MAX →
    foldM (λ '(io, indices) next_items,
             let* items := next_items in
             let* items_bin := serialize_items 0 sers items in
             let* headers_bin := pack_headers items_bin in
             let indices := indices ++ [tell io] in
             let* io := write_all io headers_bin in
             let* io := write_all io items_bin in
             ret (io, indices))
          (Handle output (length (log_file blocks0)) false, indices0)
          pending fs
    = (<[output := log_file (blocks0 ++ map (encode_record sers) records)]> fs,
       inr (Handle output
              (length (log_file (blocks0 ++ map (encode_record sers) records)))
              false,
            indices0
            ++ map (block_offset (blocks0 ++ map (encode_record sers) records))
                   (seq (length blocks0) (length records)))).
Proof.
  induction 1 as [|next r pending records Hnext _ IH];
    intros Hlen fs blocks0 indices0 HQ Hc Hsz.
  - cbn [foldM map seq length]. unfold ret. rewrite !app_nil_r.
    by rewrite insert_id.
  - apply Forall_cons in Hlen as [Hr Hlen].
    cbn [map] in *.
    assert (Hsplit : blocks0 ++ encode_record sers r :: map (encode_record sers) records
                     = (blocks0 ++ [encode_record sers r])
                         ++ map (encode_record sers) records)
      by (by rewrite <- app_assoc).
    rewrite Hsplit in *.
    cbn [foldM]. io_simpl.
    assert (Hb : Forall (λ b : list byte, Z.of_nat (length b) < Q_MAX)
                        (encode_record sers r)).
    { apply payload_bound.
      rewrite log_file_app, log_file_snoc, !length_app in Hsz. lia. }
    erewrite bind_inr; cycle 1.
    { io_step ltac:(apply Hnext, HQ).
      io_step ltac:(apply serialize_items_ok; lia).
      rewrite drop_0.
      io_step ltac:(apply pack_headers_ok, Hb).
      rewrite (write_block _ _ _ _ _ _ Hc). reflexivity. }
    io_simpl. rewrite <- log_file_snoc.
    rewrite (IH Hlen _ (blocks0 ++ [encode_record sers r]));
      [| by apply Q_output | apply lookup_insert_eq | exact Hsz].
    rewrite insert_insert_eq. unfold tell. cbn [h_pos length seq map].
    rewrite <- app_assoc. cbn [app].
    rewrite (length_app blocks0), Nat.add_1_r.
    rewrite <- app_assoc, block_offset_app. reflexivity.
Qed.

(** [make_dataset]: the log of the encoded records and the index of
    where each begins. *)
Lemma make_dataset_files (record_iters : Iterable V)
    (pending : list (IO (list V))) (records : list (list V))
    (index_path : option string) (fs : fsys) :
  Q (<[output := RESERVED_BYTES]> fs) →
  (∀ fs, Q fs → record_iters fs = (fs, inr pending)) →
  Forall2 (λ next r, ∀ fs, Q fs → next fs = (fs, inr r)) pending records →
  Forall (λ r, (length sers ≤ length r)%nat) records →
  Z.of_nat (length (log_file (map (encode_record sers) records))) < Q_MAX →
  Z.of_nat (length records) < Q_MAX →
  make_dataset record_iters output sers index_path fs
  = (<[default_index_path output index_path :=
         index_file (map (block_offset (map (encode_record sers) records))
                         (seq 0 (length records)))]>
       (<[output := log_file (map (encode_record sers) records)]> fs),
     inr (output, default_index_path output index_path)).
Proof.
  intros HQ Hstart Hnext Hlen Hsz Hn. unfold make_dataset.
  io_step ltac:(reflexivity).
  io_step ltac:(apply write_plain).
  rewrite content_insert, insert_insert_eq.
  change (write_at [] 0 RESERVED_BYTES)
    with ([] ++ [] ++ RESERVED_BYTES ++ drop (0 + length RESERVED_BYTES) []).
  rewrite drop_nil, app_nil_r. cbn [app].
  io_step ltac:(apply Hstart, HQ).
  erewrite bind_inr; cycle 1.
  { rewrite <- log_file_nil at 2.
    apply (build_loop pending records Hnext Hlen _ [] []);
      [exact HQ | by rewrite log_file_nil, lookup_insert_eq | exact Hsz]. }
  io_simpl. cbn [app length]. rewrite insert_insert_eq.
  erewrite bind_inr; cycle 1.
  { apply write_offsets_spec.
    - by rewrite length_map, length_seq.
    - apply Forall_forall. intros o Ho.
      apply list_elem_of_fmap in Ho as [j [-> Hj]].
      unfold block_offset, is_u64. split; [lia|].
      eapply Z.le_lt_trans; [|exact Hsz].
      pose proof (f_equal (λ b, length (log_file b))
                    (take_drop j (map (encode_record sers) records))) as H.
      cbv beta in H. rewrite log_file_app, length_app in H. lia. }
  reflexivity.
Qed.

End Builder.

(** * Datasets on a well-formed pair *)

Lemma block_offset_bound (blocks : list (list (list byte))) (j : nat) :
  0 ≤ block_offset blocks j ≤ Z.of_nat (length (log_file blocks)).
Proof.
  unfold block_offset. split; [lia|].
  pose proof (f_equal (λ b, length (log_file b)) (take_drop j blocks)) as H.
  cbv beta in H. rewrite log_file_app, length_app in H. lia.
Qed.

(** No block begins within the reserved bytes. *)
Lemma block_offset_reserved (blocks : list (list (list byte))) (j : nat) :
  Z.of_nat (length RESERVED_BYTES) ≤ block_offset blocks j.
Proof. unfold block_offset, log_file. rewrite length_app. lia. Qed.

(** An indexed block ends within the log. *)
Lemma block_offset_end (blocks : list (list (list byte))) (j : nat) ps :
  blocks !! j = Some ps →
  block_offset blocks j + Z.of_nat (length (encode_block ps))
  ≤ Z.of_nat (length (log_file blocks)).
Proof.
  intros Hj. unfold block_offset.
  pose proof (f_equal length (log_file_split blocks j ps Hj)) as H.
  rewrite !length_app in H. lia.
Qed.

Section PairOk.
Context {R W : Type}.
Variable k : nat.
Variable fs : fsys.
Variable self : IndexedRecordDataset R W.
Variable blocks : list (list (list byte)).
Variable live : list nat.
Hypothesis Hok : pair_ok k fs (path self) (index self) blocks live.


Lemma pair_ok_len :
  __len__ self fs = (fs, inr (Z.of_nat (length live))).
Proof.
  unfold __len__.
  pose proof (ok_count _ _ _ _ _ _ Hok) as Hn.
  erewrite bind_inr; cycle 1.
  { eapply len_index_file; [apply (ok_index _ _ _ _ _ _ Hok)|].
    by rewrite length_map. }
  rewrite length_map. unfold IndexFile.py_len.
  destruct (Z.ltb_spec (Z.of_nat (length live)) SSIZE_MAX); [done|lia].
Qed.

Lemma pair_ok_getitem decs (i j : nat) ps :
  deserializers self = Some decs → length decs = k →
  live !! i = Some j → blocks !! j = Some ps →
  __getitem__ self (Z.of_nat i) fs = (fs, inr (decode_record decs ps)).
Proof.
  intros Hd Hk Hi Hj. unfold __getitem__. rewrite Hd.
  pose proof (ok_size _ _ _ _ _ _ Hok) as Hsz.
  erewrite bind_inr; cycle 1.
  { eapply (getitem_index_file _ _ _ i (block_offset blocks j)).
    - apply (ok_index _ _ _ _ _ _ Hok).
    - rewrite length_map. apply (ok_count _ _ _ _ _ _ Hok).
    - by rewrite list_lookup_fmap, Hi.
    - pose proof (block_offset_bound blocks j).
      unfold is_u64, SSIZE_MAX, Q_MAX in *. lia. }
  unfold block_offset.
  apply (read_record_block _ _ _ ps _
           (concat (map encode_block (drop (S j) blocks)))).
  - rewrite <- (log_file_split blocks j ps Hj). apply (ok_log _ _ _ _ _ _ Hok).
  - by rewrite <- (log_file_split blocks j ps Hj).
  - pose proof (ok_arity _ _ _ _ _ _ Hok) as Ha.
    rewrite Forall_forall in Ha. rewrite Hk. apply Ha.
    eapply list_elem_of_lookup_2; eauto.
Qed.


End PairOk.

Lemma decode_encode_record {V} (encs : list (V → list byte))
    (decs : list (list byte → V)) (r : list V) :
  length encs = length r → length decs = length r →
  field_inverse encs decs r →
  decode_record decs (encode_record encs r) = r.
Proof.
  intros He Hd Hinv. apply list_eq. intros i.
  unfold decode_record, encode_record. rewrite !lookup_zip_with.
  destruct (decs !! i) as [d|] eqn:Hdi; cbn.
  - destruct (encs !! i) as [e|] eqn:Hei; cbn.
    + destruct (r !! i) as [v|] eqn:Hv; cbn; [|done].
      f_equal. eapply Hinv; eauto.
    + apply lookup_ge_None in Hei. symmetry. apply lookup_ge_None. lia.
  - apply lookup_ge_None in Hdi. symmetry. apply lookup_ge_None. lia.
Qed.

Lemma length_encode_record {V} (sers : list (V → list byte)) (r : list V) :
  (length sers ≤ length r)%nat → length (encode_record sers r) = length sers.
Proof. intros H. unfold encode_record. by apply length_zip_with_l. Qed.

(** What [make_dataset] leaves is a well-formed pair that lists every
    block, in the order of the records. *)
Lemma make_dataset_pair_ok {V} (output : string) (sers : list (V → list byte))
    (records : list (list V)) (index_path : option string) (fs : fsys) :
  default_index_path output index_path ≠ output →
  Forall (λ r, (length sers ≤ length r)%nat) records →
  Z.of_nat (length (log_file (map (encode_record sers) records))) < SSIZE_MAX →
  Z.of_nat (length records) < SSIZE_MAX →
  ∃ fs',
    make_dataset (iter_list records) output sers index_path fs
    = (fs', inr (output, default_index_path output index_path))
    ∧ pair_ok (length sers) fs' output (default_index_path output index_path)
        (map (encode_record sers) records) (seq 0 (length records))
    ∧ ∀ p, p ≠ output → p ≠ default_index_path output index_path →
           fs' !! p = fs !! p.
Proof.
  intros Hp Hlen Hsz Hn. eexists. split; [|split].
  - apply (make_dataset_files output sers (λ _, True) ltac:(done)
             (iter_list records) (map ret records) records index_path fs);
      [done | done | | done | unfold SSIZE_MAX, Q_MAX in *; lia
       | unfold SSIZE_MAX, Q_MAX in *; lia].
    clear. induction records; constructor; auto.
  - constructor.
    + done.
    + rewrite lookup_insert_ne by done. apply lookup_insert_eq.
    + apply Forall_forall. intros ps Hps.
      apply list_elem_of_fmap in Hps as [r [-> Hr]].
      rewrite Forall_forall in Hlen. apply length_encode_record. auto.
    + apply lookup_insert_eq.
    + apply Forall_forall. intros j Hj. apply elem_of_seq in Hj.
      rewrite length_map. lia.
    + apply NoDup_seq.
    + done.
    + by rewrite length_seq.
  - intros p H1 H2. by rewrite !lookup_insert_ne.
Qed.

(** * More on bytes: every eight bytes are the image of their value *)

Lemma byte_of_Z_of_byte (b : byte) (v : Z) :
  byte_of_Z (Z_of_byte b + 256 * v) = b.
Proof.
  pose proof (Z_of_byte_range b) as Hr.
  unfold byte_of_Z.
  replace ((Z_of_byte b + 256 * v) mod 256) with (Z_of_byte b).
  - unfold Z_of_byte. rewrite N2Z.id, Byte.of_to_N. reflexivity.
  - rewrite (Z.mul_comm 256 v), Z.mod_add by lia.
    symmetry. apply Z.mod_small. lia.
Qed.

Lemma le_bytes_le_value (bs : list byte) :
  le_bytes (length bs) (le_value bs) = bs.
Proof.
  induction bs as [|b bs IH]; [done|].
  cbn [length le_value le_bytes]. rewrite byte_of_Z_of_byte. f_equal.
  replace ((Z_of_byte b + 256 * le_value bs) / 256) with (le_value bs); [done|].
  pose proof (Z_of_byte_range b).
  rewrite (Z.mul_comm 256 (le_value bs)), Z.div_add by lia.
  rewrite (Z.div_small (Z_of_byte b)) by lia. lia.
Qed.

(** A file of at least eight bytes begins with the bytes of its count. *)
Lemma file_head (c : list byte) :
  (8 ≤ length c)%nat → c = le_bytes 8 (le_value (take 8 c)) ++ drop 8 c.
Proof.
  intros Hl.
  assert (H8 : length (take 8 c) = 8%nat) by (rewrite length_take; lia).
  rewrite <- H8 at 1. rewrite le_bytes_le_value. by rewrite take_drop.
Qed.

Lemma le_value_8_u64 (bs : list byte) : length bs = 8%nat → is_u64 (le_value bs).
Proof.
  intros H. pose proof (le_value_range bs) as Hr. rewrite H in Hr.
  unfold is_u64, Q_MAX. change (256 ^ Z.of_nat 8) with (2 ^ 64) in Hr. lia.
Qed.

(** * Swap-removal on sequences *)

Lemma swap_remove_nil {A} (d : A) (i : Z) : swap_remove d i [] = [].
Proof.
  unfold swap_remove. cbn [length take Nat.sub].
  by destruct ((0 <=? i) && (i <? Z.of_nat 0 - 1)).
Qed.

Lemma swap_remove_snoc {A} (d : A) (i : Z) (front : list A) (lst : A) :
  swap_remove d i (front ++ [lst])
  = if (0 <=? i) && (i <? Z.of_nat (length front))
    then <[Z.to_nat i := lst]> front else front.
Proof.
  unfold swap_remove. rewrite last_snoc, length_app. cbn [length default].
  replace (length front + 1 - 1)%nat with (length front) by lia.
  rewrite take_app_length.
  replace (Z.of_nat (length front + 1) - 1) with (Z.of_nat (length front)) by lia.
  reflexivity.
Qed.

Lemma fmap_swap_remove {A B} (f : A → B) (d : A) (d' : B) (i : Z) (l : list A) :
  l ≠ [] → f <$> swap_remove d i l = swap_remove d' i (f <$> l).
Proof.
  intros Hne. destruct (exists_last Hne) as [front [lst ->]].
  rewrite fmap_app. cbn [fmap list_fmap].
  rewrite !swap_remove_snoc, length_fmap.
  destruct ((0 <=? i) && (i <? Z.of_nat (length front))); [|done].
  apply list_fmap_insert.
Qed.

Lemma swap_remove_last {A} (d : A) (i : Z) (l : list A) :
  Z.of_nat (length l) - 1 ≤ i → swap_remove d i l = take (length l - 1) l.
Proof.
  intros Hi. unfold swap_remove.
  destruct (Z.ltb_spec i (Z.of_nat (length l) - 1)); [lia|].
  by rewrite andb_false_r.
Qed.

(** Position [i] now holds what was last. *)
Lemma swap_remove_lookup_eq {A} (d : A) (i : nat) (l : list A) :
  (i < length l - 1)%nat →
  swap_remove d (Z.of_nat i) l !! i = l !! (length l - 1)%nat.
Proof.
  intros Hi. destruct (decide (l = [])) as [->|Hne]; [simpl in Hi; lia|].
  destruct (exists_last Hne) as [front [lst ->]].
  rewrite length_app in *. cbn [length] in *.
  rewrite swap_remove_snoc.
  destruct (Z.leb_spec 0 (Z.of_nat i)); [|lia].
  destruct (Z.ltb_spec (Z.of_nat i) (Z.of_nat (length front))); [|lia].
  cbn [andb]. rewrite Nat2Z.id, list_lookup_insert_eq by lia.
  replace (length front + 1 - 1)%nat with (length front + 0)%nat by lia.
  by rewrite lookup_app_r, Nat.add_comm, Nat.add_sub by lia.
Qed.

(** The other positions that remain hold what they held. *)
Lemma swap_remove_lookup_ne {A} (d : A) (i : Z) (j : nat) (l : list A) :
  (j < length l - 1)%nat → i ≠ Z.of_nat j →
  swap_remove d i l !! j = l !! j.
Proof.
  intros Hj Hne. destruct (decide (l = [])) as [->|Hl]; [simpl in Hj; lia|].
  destruct (exists_last Hl) as [front [lst ->]].
  rewrite length_app in *. cbn [length] in *.
  rewrite swap_remove_snoc, (lookup_app_l front) by lia.
  destruct ((0 <=? i) && (i <? Z.of_nat (length front))) eqn:E; [|done].
  apply andb_true_iff in E as [E1 E2].
  apply Z.leb_le in E1. apply list_lookup_insert_ne. lia.
Qed.

Lemma swap_remove_elem_of {A} (d : A) (i : Z) (l : list A) (x : A) :
  x ∈ swap_remove d i l → x ∈ l.
Proof.
  destruct (decide (l = [])) as [->|Hl].
  { by rewrite swap_remove_nil. }
  destruct (exists_last Hl) as [front [lst ->]].
  rewrite swap_remove_snoc.
  destruct ((0 <=? i) && (i <? Z.of_nat (length front))) eqn:E.
  - intros Hx. apply list_elem_of_lookup in Hx as [j Hj].
    apply list_lookup_insert_Some in Hj as [(_ & <- & _)|[_ Hj]].
    + apply elem_of_app. right. by apply list_elem_of_singleton.
    + apply elem_of_app. left. eapply list_elem_of_lookup_2; eauto.
  - intros Hx. apply elem_of_app. by left.
Qed.

Lemma swap_remove_NoDup {A} (d : A) (i : Z) (l : list A) :
  NoDup l → NoDup (swap_remove d i l).
Proof.
  intros Hnd. destruct (decide (l = [])) as [->|Hl].
  { by rewrite swap_remove_nil. }
  destruct (exists_last Hl) as [front [lst ->]].
  rewrite swap_remove_snoc.
  apply NoDup_app in Hnd as (Hf & Hsep & _).
  destruct ((0 <=? i) && (i <? Z.of_nat (length front))) eqn:E; [|done].
  apply andb_true_iff in E as [E1 E2].
  apply Z.leb_le in E1. apply Z.ltb_lt in E2.
  rewrite insert_take_drop by lia.
  destruct (lookup_lt_is_Some_2 front (Z.to_nat i) ltac:(lia)) as [y Hy].
  assert (Hsub : take (Z.to_nat i) front ++ drop (S (Z.to_nat i)) front
                 `sublist_of`
                 take (Z.to_nat i) front ++ y :: drop (S (Z.to_nat i)) front)
    by (apply sublist_app; [done | by apply sublist_cons]).
  rewrite (take_drop_middle front _ y Hy) in Hsub.
  eapply NoDup_Permutation_proper; [symmetry; apply Permutation_middle|].
  apply NoDup_cons. split.
  - intros Hin. eapply elem_of_sublist in Hin; [|exact Hsub].
    apply (Hsep lst Hin). by apply list_elem_of_singleton.
  - eapply sublist_NoDup; eauto.
Qed.

(** * [append] *)

Section Append.
Context {R W : Type}.
Variable self : IndexedRecordDataset R W.
Variable fs : fsys.
Variable offs : list Z.
Hypothesis Hidx : index_holds fs (index self) offs.

Lemma index_holds_len :
  __len__ self fs = (fs, inr (Z.of_nat (length offs))).
Proof.
  destruct Hidx as [Hn Hc]. unfold __len__.
  erewrite bind_inr; cycle 1.
  { destruct Hc as [Hc|[Hc ->]];
      [eapply len_index_file; eauto | apply len_missing, Hc]. }
  unfold IndexFile.py_len.
  destruct (Z.ltb_spec (Z.of_nat (length offs)) SSIZE_MAX); [done|lia].
Qed.

(** The first statement of [append]: the log is started anew if it is
    missing or if the index lists nothing. *)
Lemma append_prefix {B} (k : IO B) :
  (let* there := isfile (path self) in
   let* reset := if negb there then ret true
                 else let* n := __len__ self in ret (n =? 0) in
   let* _ := if reset : bool
             then let* io := open_wb (path self) in
                  let* io := write io RESERVED_BYTES in ret tt
             else ret tt in
   k) fs
  = k (<[path self := log_base fs (path self) offs]> fs).
Proof.
  assert (Hreset : ∀ fs0 : fsys,
             (let* io := open_wb (path self) in
              let* io := write io RESERVED_BYTES in ret tt) fs0
             = (<[path self := RESERVED_BYTES]> fs0, inr tt)).
  { intros fs0. io_step ltac:(reflexivity).
    io_step ltac:(apply write_plain).
    rewrite content_insert, insert_insert_eq.
    change (write_at [] 0 RESERVED_BYTES)
      with ([] ++ [] ++ RESERVED_BYTES ++ drop (0 + length RESERVED_BYTES) []).
    rewrite drop_nil, app_nil_r. reflexivity. }
  unfold log_base. destruct (fs !! path self) as [c|] eqn:Hc.
  - io_step ltac:(eapply isfile_Some; eauto).
    erewrite bind_inr; cycle 1.
    { io_step ltac:(apply index_holds_len). reflexivity. }
    destruct (decide (offs = [])) as [->|Hne].
    + rewrite bool_decide_true by done. cbn [length Z.of_nat Z.eqb].
      io_step ltac:(apply Hreset). reflexivity.
    + rewrite bool_decide_false by done.
      destruct (Z.eqb_spec (Z.of_nat (length offs)) 0) as [H0|H0].
      { destruct offs; [done | simpl in H0; lia]. }
      io_step ltac:(reflexivity). by rewrite insert_id.
  - io_step ltac:(eapply isfile_None; eauto).
    io_step ltac:(reflexivity).
    io_step ltac:(apply Hreset). reflexivity.
Qed.

(** Without serializers, [append] fails at its assertion; the log has
    been started anew by then if it was to be. *)
Lemma append_no_serializers (items : list W) :
  serializers self = None →
  append self items fs
  = (<[path self := log_base fs (path self) offs]> fs,
     inl (AssertionError (Some NEED_SERIALIZERS))).
Proof.
  intros Hs. unfold append. rewrite append_prefix. by rewrite Hs.
Qed.

(** With serializers but too few items, [append] fails when it takes the
    missing item; the log has been started anew by then if it was to be. *)
Lemma append_short_items (sers : list (W → list byte)) (items : list W) :
  serializers self = Some sers →
  (length items < length sers)%nat →
  append self items fs
  = (<[path self := log_base fs (path self) offs]> fs, inl IndexError).
Proof.
  intros Hs Hlen. unfold append. rewrite append_prefix, Hs.
  erewrite bind_inl; [done|]. apply serialize_items_short. lia.
Qed.

(** With serializers: the block of the record is added to the log and
    its offset to the index. *)
Lemma append_files (sers : list (W → list byte)) (items : list W) :
  serializers self = Some sers →
  path self ≠ index self →
  (length sers ≤ length items)%nat →
  Z.of_nat (length (log_base fs (path self) offs
                    ++ encode_block (encode_record sers items))) < Q_MAX →
  append self items fs
  = (<[path self := log_base fs (path self) offs
                    ++ encode_block (encode_record sers items)]>
       (<[index self :=
            index_file (offs ++ [Z.of_nat (length (log_base fs (path self) offs))])]>
          (<[path self := log_base fs (path self) offs]> fs)),
     inr tt).
Proof.
  intros Hs Hp Hlen Hsz. unfold append. rewrite append_prefix, Hs.
  set (base := log_base fs (path self) offs) in *.
  set (fs1 := <[path self := base]> fs).
  assert (Hb : fs1 !! path self = Some base) by apply lookup_insert_eq.
  rewrite length_app in Hsz.
  io_step ltac:(apply serialize_items_ok; lia).
  rewrite drop_0.
  io_step ltac:(apply pack_headers_ok, payload_bound; lia).
  io_step ltac:(unfold open_ab; rewrite Hb; reflexivity).
  io_step ltac:(eapply seek_end_some; [exact Hb | lia]).
  rewrite Z.add_0_r, Nat2Z.id. unfold tell. cbn [h_pos].
  erewrite bind_inr; cycle 1.
  { apply (append_index_file _ _ offs).
    - unfold fs1. rewrite lookup_insert_ne by done.
      destruct Hidx as [_ [?|[? ?]]]; auto.
    - apply Hidx.
    - unfold is_u64. lia. }
  rewrite (write_block _ _ _ base); [reflexivity|].
  by rewrite lookup_insert_ne.
Qed.

End Append.

(** * The operations keep the pair well formed *)

Section Preservation.
Context {R W : Type}.
Variable k : nat.
Variable fs : fsys.
Variable self : IndexedRecordDataset R W.
Variable blocks : list (list (list byte)).
Variable live : list nat.
Hypothesis Hok : pair_ok k fs (path self) (index self) blocks live.

Lemma pair_ok_index_holds :
  index_holds fs (index self) (map (block_offset blocks) live).
Proof.
  split.
  - rewrite length_map. apply (ok_count _ _ _ _ _ _ Hok).
  - left. apply (ok_index _ _ _ _ _ _ Hok).
Qed.

Lemma pair_ok_log_base :
  log_base fs (path self) (map (block_offset blocks) live)
  = log_file (kept_blocks blocks live).
Proof.
  unfold log_base, kept_blocks. rewrite (ok_log _ _ _ _ _ _ Hok).
  destruct live as [|j live'].
  - rewrite !bool_decide_true by done. by rewrite log_file_nil.
  - by rewrite !bool_decide_false by done.
Qed.

Lemma kept_blocks_elem (j : nat) : j ∈ live → kept_blocks blocks live = blocks.
Proof.
  intros Hj. unfold kept_blocks. destruct live; [by apply elem_of_nil in Hj|].
  by rewrite bool_decide_false.
Qed.

Lemma append_pair_ok (sers : list (W → list byte)) (items : list W) :
  serializers self = Some sers → length sers = k →
  (k ≤ length items)%nat →
  Z.of_nat (length (log_file (kept_blocks blocks live
                              ++ [encode_record sers items]))) < SSIZE_MAX →
  Z.of_nat (length live) + 1 < SSIZE_MAX →
  ∃ fs',
    append self items fs = (fs', inr tt)
    ∧ pair_ok k fs' (path self) (index self)
        (kept_blocks blocks live ++ [encode_record sers items])
        (live ++ [length (kept_blocks blocks live)])
    ∧ ∀ p, p ≠ path self → p ≠ index self → fs' !! p = fs !! p.
Proof.
  intros Hs Hk Hlen Hsz Hn.
  pose proof (ok_paths _ _ _ _ _ _ Hok) as Hp.
  eexists. split; [|split].
  - apply (append_files self fs _ pair_ok_index_holds sers items Hs Hp);
      [lia|].
    rewrite pair_ok_log_base, <- log_file_snoc.
    unfold SSIZE_MAX, Q_MAX in *. lia.
  - rewrite pair_ok_log_base, <- log_file_snoc.
    constructor.
    + exact Hp.
    + apply lookup_insert_eq.
    + apply Forall_app. split.
      * unfold kept_blocks. destruct (bool_decide (live = [])); [constructor|].
        apply (ok_arity _ _ _ _ _ _ Hok).
      * constructor; [|constructor]. rewrite length_encode_record; lia.
    + rewrite lookup_insert_ne by done. rewrite lookup_insert_eq.
      do 2 f_equal. rewrite map_app. cbn [map]. rewrite block_offset_app.
      f_equal. apply map_ext_in. intros j Hj. apply list_elem_of_In in Hj.
      rewrite (kept_blocks_elem j Hj). symmetry. apply block_offset_app_l.
      pose proof (ok_live _ _ _ _ _ _ Hok) as Hl.
      rewrite Forall_forall in Hl. specialize (Hl j Hj). lia.
    + apply Forall_app. split.
      * apply Forall_forall. intros j Hj.
        rewrite (kept_blocks_elem j Hj), length_app.
        pose proof (ok_live _ _ _ _ _ _ Hok) as Hl.
        rewrite Forall_forall in Hl. specialize (Hl j Hj). lia.
      * constructor; [|constructor]. rewrite length_app. simpl. lia.
    + apply NoDup_app. split; [apply (ok_nodup _ _ _ _ _ _ Hok)|]. split.
      * intros j Hj Hj'. apply list_elem_of_singleton in Hj'.
        rewrite (kept_blocks_elem j Hj) in Hj'.
        pose proof (ok_live _ _ _ _ _ _ Hok) as Hl.
        rewrite Forall_forall in Hl. specialize (Hl _ Hj). lia.
      * apply NoDup_singleton.
    + exact Hsz.
    + rewrite length_app. simpl. lia.
  - intros p H1 H2. by rewrite !lookup_insert_ne.
Qed.

Lemma quick_remove_at_pair_ok (i : Z) :
  live ≠ [] → -1 ≤ i →
  ∃ fs',
    quick_remove_at self i fs = (fs', inr tt)
    ∧ pair_ok k fs' (path self) (index self) blocks (swap_remove 0%nat i live)
    ∧ fs' !! index self
      = Some (index_file (swap_remove 0 i (map (block_offset blocks) live)))
    ∧ ∀ p, p ≠ index self → fs' !! p = fs !! p.
Proof.
  intros Hne Hi.
  pose proof (ok_paths _ _ _ _ _ _ Hok) as Hp.
  eexists. split; [|split; [|split]].
  - unfold quick_remove_at.
    apply (quick_remove_at_index_file _ _ (map (block_offset blocks) live));
      [apply (ok_index _ _ _ _ _ _ Hok) | | | exact Hi].
    + destruct live; [done | discriminate].
    + rewrite length_map. apply (ok_count _ _ _ _ _ _ Hok).
  - constructor.
    + exact Hp.
    + rewrite lookup_insert_ne by done. apply (ok_log _ _ _ _ _ _ Hok).
    + apply (ok_arity _ _ _ _ _ _ Hok).
    + rewrite lookup_insert_eq. do 2 f_equal. symmetry.
      by apply (fmap_swap_remove (block_offset blocks)).
    + apply Forall_forall. intros j Hj. apply swap_remove_elem_of in Hj.
      pose proof (ok_live _ _ _ _ _ _ Hok) as Hl.
      rewrite Forall_forall in Hl. auto.
    + apply swap_remove_NoDup, (ok_nodup _ _ _ _ _ _ Hok).
    + apply (ok_size _ _ _ _ _ _ Hok).
    + rewrite length_swap_remove.
      pose proof (ok_count _ _ _ _ _ _ Hok). lia.
  - apply lookup_insert_eq.
  - intros p Hpp. by rewrite lookup_insert_ne.
Qed.

End Preservation.

(** * Compaction *)

Lemma identity_fields {A} (fns : list A) (ps : list (list byte)) :
  (length ps ≤ length fns)%nat →
  zip_with (λ (f : list byte → list byte) b, f b)
           (map (λ _ x, x) fns) ps = ps.
Proof.
  revert ps. induction fns as [|f fns IH]; intros [|b ps] Hl;
    cbn in *; try done; try lia.
  f_equal. apply IH. lia.
Qed.

Lemma length_concat_blocks (bs : list (list (list byte))) :
  length (concat (map encode_block bs))
  = sum_list_with (λ ps, length (encode_block ps)) bs.
Proof.
  induction bs as [|ps bs IH]; [done|].
  cbn [map concat sum_list_with]. by rewrite length_app, IH.
Qed.

Lemma sum_list_with_fmap {A B} (f : B → nat) (g : A → B) (l : list A) :
  sum_list_with f (g <$> l) = sum_list_with (λ x, f (g x)) l.
Proof. induction l as [|x l IH]; [done|]. cbn. by rewrite IH. Qed.

Lemma blocks_by_position (blocks : list (list (list byte))) :
  block_at blocks <$> seq 0 (length blocks) = blocks.
Proof.
  apply list_eq. intros i. rewrite list_lookup_fmap.
  destruct (blocks !! i) as [ps|] eqn:Hi.
  - rewrite (lookup_seq_lt 0 (length blocks) i) by (eapply lookup_lt_Some; eauto).
    cbn. unfold block_at. by rewrite Hi.
  - rewrite lookup_seq_ge; [done|]. by apply lookup_ge_None.
Qed.

(** The log is made of the reserved bytes, of the blocks the index
    lists, and of the orphaned bytes. *)
Lemma log_size_accounting (blocks : list (list (list byte))) (live : list nat) :
  NoDup live → Forall (λ j, (j < length blocks)%nat) live →
  (length (log_file (live_blocks blocks live)) + orphaned_bytes blocks live
   = length (log_file blocks))%nat.
Proof.
  intros Hnd Hlive.
  assert (Htotal : sum_list_with (λ ps, length (encode_block ps)) blocks
                   = sum_list_with (block_size blocks) (seq 0 (length blocks))).
  { rewrite <- (blocks_by_position blocks) at 1.
    by rewrite sum_list_with_fmap. }
  unfold log_file. rewrite !length_app, !length_concat_blocks, Htotal.
  unfold live_blocks, orphaned_bytes. rewrite sum_list_with_fmap.
  change (λ x, length (encode_block (block_at blocks x)))
    with (block_size blocks).
  rewrite <- (sum_list_with_Permutation_proper (block_size blocks) _ _
                (filter_app_complement (λ j, j ∈ live) (seq 0 (length blocks)))).
  rewrite sum_list_with_app.
  assert (Hperm : filter (λ j, j ∈ live) (seq 0 (length blocks)) ≡ₚ live).
  { apply NoDup_Permutation; [apply NoDup_filter, NoDup_seq | done |].
    intros j. rewrite list_elem_of_filter, elem_of_seq.
    rewrite Forall_forall in Hlive. split; [tauto|].
    intros Hj. specialize (Hlive j Hj). split; [done | lia]. }
  rewrite (sum_list_with_Permutation_proper _ _ _ Hperm). lia.
Qed.

Lemma defrag_pending_records {W} (k : nat) (self : IndexedRecordDataset (list byte) W)
    (fns : list (list byte → list byte))
    (blocks : list (list (list byte))) (live : list nat) :
  deserializers self = Some fns → fns = map (λ _ x, x) fns → length fns = k →
  Forall (λ ps : list (list byte), length ps = k) blocks →
  Forall (λ j, (j < length blocks)%nat) live →
  Forall2 (λ next r, ∀ fs : fsys,
             pair_ok k fs (path self) (index self) blocks live →
             next fs = (fs, inr r))
          (map (λ i, __getitem__ self (Z.of_nat i)) (seq 0 (length live)))
          (live_blocks blocks live).
Proof.
  intros Hd Hid Hk Harity Hlive.
  apply Forall2_same_length_lookup_2.
  { unfold live_blocks. by rewrite !length_map, length_seq. }
  intros i next r Hnext Hr fs Hok.
  apply list_lookup_fmap_Some in Hnext as [i' [-> Hi']].
  apply lookup_seq in Hi' as [-> Hi]. cbn [Nat.add].
  unfold live_blocks in Hr.
  apply list_lookup_fmap_Some in Hr as [j [-> Hj]].
  rewrite Forall_forall in Hlive.
  destruct (lookup_lt_is_Some_2 blocks j) as [ps Hps].
  { apply Hlive. eapply list_elem_of_lookup_2; eauto. }
  unfold block_at. rewrite Hps. cbn [default].
  rewrite (pair_ok_getitem k fs self blocks live Hok fns i j ps Hd Hk Hj Hps).
  do 2 f_equal. unfold decode_record. rewrite Hid.
  apply identity_fields.
  rewrite Forall_forall in Harity. change (length ps ≤ length fns)%nat.
  rewrite Hk, (Harity ps); [done|]. eapply list_elem_of_lookup_2; eauto.
Qed.

Section Defrag.
Context {R W : Type}.
Variable k : nat.
Variable fs : fsys.
Variable self : IndexedRecordDataset R W.
Variable blocks : list (list (list byte)).
Variable live : list nat.
Variable decs : list (list byte → R).
Variable output_file : string.
Hypothesis Hok : pair_ok k fs (path self) (index self) blocks live.
Hypothesis Hdecs : deserializers self = Some decs.
Hypothesis Hk : length decs = k.
Hypothesis Hout_log : output_file ≠ path self.
Hypothesis Hout_idx : output_file ≠ index self.

Lemma live_blocks_arity :
  Forall (λ ps : list (list byte), length ps = k) (live_blocks blocks live).
Proof.
  apply Forall_forall. intros ps Hps. unfold live_blocks in Hps.
  apply list_elem_of_fmap in Hps as [j [-> Hj]].
  pose proof (ok_live _ _ _ _ _ _ Hok) as Hl.
  pose proof (ok_arity _ _ _ _ _ _ Hok) as Ha.
  rewrite Forall_forall in Hl. rewrite Forall_forall in Ha.
  destruct (lookup_lt_is_Some_2 blocks j (Hl j Hj)) as [ps Hps].
  unfold block_at. rewrite Hps. apply Ha.
  eapply list_elem_of_lookup_2; eauto.
Qed.

Lemma live_blocks_size :
  (length (log_file (live_blocks blocks live)) ≤ length (log_file blocks))%nat.
Proof.
  pose proof (log_size_accounting blocks live (ok_nodup _ _ _ _ _ _ Hok)
                (ok_live _ _ _ _ _ _ Hok)). lia.
Qed.

(** [defrag] writes the blocks the index lists, in the order of the
    index, to the new log, and their offsets to the index beside it. *)
Lemma defrag_files :
  defrag self output_file fs
  = (<[default_index_path output_file None :=
         index_file (map (block_offset (live_blocks blocks live))
                         (seq 0 (length live)))]>
       (<[output_file := log_file (live_blocks blocks live)]> fs),
     inr (output_file, default_index_path output_file None)).
Proof.
  unfold defrag. rewrite Hdecs.
  set (ids := map (λ _ (x : list byte), x) decs).
  set (ref := Dataset (path self) (Some ids) (serializers self) (index self)).
  assert (Hids : ids = map (λ _ x, x) ids).
  { unfold ids. rewrite map_map. reflexivity. }
  assert (Hlen_ids : length ids = k) by (unfold ids; by rewrite length_map).
  pose proof live_blocks_arity as Harity.
  assert (Henc : map (encode_record ids) (live_blocks blocks live)
                 = live_blocks blocks live).
  { rewrite <- (map_id (live_blocks blocks live)) at 2.
    apply map_ext_in. intros ps Hps. apply list_elem_of_In in Hps.
    rewrite Forall_forall in Harity. unfold encode_record, ids.
    apply identity_fields. rewrite (Harity ps Hps). lia. }
  pose proof live_blocks_size as Hsz.
  pose proof (ok_size _ _ _ _ _ _ Hok) as Hsz'.
  pose proof (ok_count _ _ _ _ _ _ Hok) as Hn.
  assert (Hframe : ∀ (fs' : fsys) c,
             pair_ok k fs' (path self) (index self) blocks live →
             pair_ok k (<[output_file := c]> fs') (path self) (index self)
                     blocks live).
  { intros fs' c Hok'. destruct Hok'.
    constructor; try done; by rewrite lookup_insert_ne. }
  rewrite (make_dataset_files output_file ids
             (λ fs', pair_ok k fs' (path self) (index self) blocks live)
             Hframe (__iter__ ref)
             (map (λ i, __getitem__ ref (Z.of_nat i)) (seq 0 (length live)))
             (live_blocks blocks live) None fs).
  - rewrite Henc.
    replace (length (live_blocks blocks live)) with (length live)
      by (unfold live_blocks; by rewrite length_map).
    reflexivity.
  - by apply Hframe.
  - intros fs' Hok'. unfold __iter__.
    rewrite (bind_inr _ _ _ _ _ (pair_ok_len k fs' ref blocks live Hok')).
    by rewrite Nat2Z.id.
  - apply (defrag_pending_records k ref ids blocks live);
      [done | exact Hids | exact Hlen_ids
       | apply (ok_arity _ _ _ _ _ _ Hok) | apply (ok_live _ _ _ _ _ _ Hok)].
  - eapply Forall_impl; [exact Harity|]. intros ps Hps. cbn beta in *. lia.
  - rewrite Henc. unfold SSIZE_MAX, Q_MAX in *. lia.
  - unfold live_blocks. rewrite length_map. unfold SSIZE_MAX, Q_MAX in *. lia.
Qed.

End Defrag.

(** * Reading by position *)

Lemma pair_ok_block_at (k : nat) (fs : fsys) (log idx : string)
    (blocks : list (list (list byte))) (live : list nat) (i j : nat) :
  pair_ok k fs log idx blocks live → live !! i = Some j →
  blocks !! j = Some (block_at blocks j).
Proof.
  intros Hok Hi. pose proof (ok_live _ _ _ _ _ _ Hok) as Hl.
  rewrite Forall_forall in Hl.
  destruct (lookup_lt_is_Some_2 blocks j) as [ps Hps].
  { apply Hl. eapply list_elem_of_lookup_2; eauto. }
  unfold block_at. by rewrite Hps.
Qed.

Lemma pair_ok_getitem_live {R W} (k : nat) (fs : fsys)
    (self : IndexedRecordDataset R W)
    (blocks : list (list (list byte))) (live : list nat)
    (decs : list (list byte → R)) (i j : nat) :
  pair_ok k fs (path self) (index self) blocks live →
  deserializers self = Some decs → length decs = k →
  live !! i = Some j →
  __getitem__ self (Z.of_nat i) fs
  = (fs, inr (decode_record decs (block_at blocks j))).
Proof.
  intros Hok Hd Hk Hi.
  eapply pair_ok_getitem; eauto. eapply pair_ok_block_at; eauto.
Qed.

(** With at least one field per record, every indexed block begins below
    the end of the log. *)
Lemma pair_ok_index_invariant (k : nat) (fs : fsys) (log idx : string)
    (blocks : list (list (list byte))) (live : list nat) :
  (0 < k)%nat → pair_ok k fs log idx blocks live →
  index_invariant fs log idx.
Proof.
  intros Hk Hok. exists blocks, (map (block_offset blocks) live).
  split; [apply (ok_log _ _ _ _ _ _ Hok)|].
  split; [apply (ok_index _ _ _ _ _ _ Hok)|].
  apply Forall_forall. intros o Ho.
  apply list_elem_of_fmap in Ho as [j [-> Hj]].
  pose proof (ok_live _ _ _ _ _ _ Hok) as Hl.
  pose proof (ok_arity _ _ _ _ _ _ Hok) as Ha.
  rewrite Forall_forall in Hl. rewrite Forall_forall in Ha.
  specialize (Hl j Hj).
  destruct (lookup_lt_is_Some_2 blocks j Hl) as [ps Hps].
  split; [|eauto].
  pose proof (block_offset_end blocks j ps Hps) as Hend.
  rewrite length_encode_block, (Ha ps) in Hend
    by (eapply list_elem_of_lookup_2; eauto).
  lia.
Qed.

(** The pair that [defrag] makes is well formed, and the source pair is
    as it was if the new files are not the old ones. *)
Lemma defrag_pair_ok {R W} (k : nat) (fs : fsys)
    (self : IndexedRecordDataset R W)
    (blocks : list (list (list byte))) (live : list nat)
    (decs : list (list byte → R)) (output_file : string) :
  pair_ok k fs (path self) (index self) blocks live →
  deserializers self = Some decs → length decs = k →
  output_file ≠ path self → output_file ≠ index self →
  default_index_path output_file None ≠ output_file →
  ∃ fs',
    defrag self output_file fs
    = (fs', inr (output_file, default_index_path output_file None))
    ∧ pair_ok k fs' output_file (default_index_path output_file None)
        (live_blocks blocks live) (seq 0 (length live))
    ∧ ∀ p, p ≠ output_file → p ≠ default_index_path output_file None →
           fs' !! p = fs !! p.
Proof.
  intros Hok Hd Hk Ho1 Ho2 Ho3. eexists. split; [|split].
  - eapply defrag_files; eauto.
  - constructor.
    + done.
    + rewrite lookup_insert_ne by done. apply lookup_insert_eq.
    + eapply live_blocks_arity; eauto.
    + apply lookup_insert_eq.
    + apply Forall_forall. intros j Hj. apply elem_of_seq in Hj.
      unfold live_blocks. rewrite length_map. lia.
    + apply NoDup_seq.
    + assert (length (log_file (live_blocks blocks live))
              ≤ length (log_file blocks))%nat
        by (eapply live_blocks_size; eauto).
      pose proof (ok_size _ _ _ _ _ _ Hok). lia.
    + rewrite length_seq. apply (ok_count _ _ _ _ _ _ Hok).
  - intros p H1 H2. by rewrite !lookup_insert_ne.
Qed.

(** * The properties of the store *)

(** C1 — round trip. For records of [k] fields, serializers and
    deserializers of [k] fields each, such that every deserializer brings
    back the field values its serializer encodes: [make_dataset] on the
    sequence succeeds, the dataset over its output has as many records as
    the sequence, and [__getitem__] at position [i] returns the [i]-th
    record of the sequence, field by field. The log and the index are two
    files, of sizes that fit a signed 64-bit word. *)
Theorem make_dataset_getitem_roundtrip {V W} (k : nat)
    (encs : list (V → list byte)) (decs : list (list byte → V))
    (sers : option (list (W → list byte)))
    (records : list (list V)) (output : string) (index_path : option string)
    (fs : fsys) :
  length encs = k → length decs = k →
  Forall (λ r, length r = k ∧ field_inverse encs decs r) records →
  default_index_path output index_path ≠ output →
  Z.of_nat (length (log_file (map (encode_record encs) records))) < SSIZE_MAX →
  Z.of_nat (length records) < SSIZE_MAX →
  ∃ fs',
    make_dataset (iter_list records) output encs index_path fs
    = (fs', inr (output, default_index_path output index_path))
    ∧ __len__ (__init__ output (Some decs) sers index_path) fs'
      = (fs', inr (Z.of_nat (length records)))
    ∧ ∀ (i : nat) r, records !! i = Some r →
        __getitem__ (__init__ output (Some decs) sers index_path)
                    (Z.of_nat i) fs'
        = (fs', inr r).
Proof.
  intros He Hd Hrec Hp Hsz Hn.
  destruct (make_dataset_pair_ok output encs records index_path fs)
    as [fs' [Hmk [Hok _]]]; [done | | done | done |].
  { eapply Forall_impl; [exact Hrec|]. intros r [Hr _]. simpl. lia. }
  exists fs'. split; [exact Hmk|].
  set (ds := __init__ output (Some decs) sers index_path).
  assert (Hok' : pair_ok (length encs) fs' (path ds) (index ds)
                   (map (encode_record encs) records) (seq 0 (length records)))
    by exact Hok.
  split.
  - rewrite (pair_ok_len _ _ ds _ _ Hok'). by rewrite length_seq.
  - intros i r Hi.
    rewrite Forall_forall in Hrec.
    destruct (Hrec r) as [Hr Hinv]; [eapply list_elem_of_lookup_2; eauto|].
    rewrite (pair_ok_getitem _ _ ds _ _ Hok' decs i i (encode_record encs r));
      [| done | lia | | by rewrite list_lookup_fmap, Hi].
    + rewrite decode_encode_record; [done | lia | lia | done].
    + apply lookup_seq. split; [done|]. by apply lookup_lt_Some in Hi.
Qed.

Lemma scenario_field_inverse (r : list value) :
  r ∈ scenario_records → field_inverse [enc_int; enc_str] [dec_int; dec_str] r.
Proof.
  intros Hr i e d v He Hd Hv.
  unfold scenario_records in Hr.
  repeat (apply elem_of_cons in Hr as [->|Hr]);
    [| | | by apply elem_of_nil in Hr];
    (destruct i as [|[|i]]; cbn in He, Hd, Hv; [| |done]);
    injection He as <-; injection Hd as <-; injection Hv as <-;
    reflexivity.
Qed.

Lemma make_dataset_getitem_roundtrip_witness :
  ∃ fs',
    make_dataset (iter_list scenario_records) "data.bin" [enc_int; enc_str]
                 None ∅
    = (fs', inr ("data.bin", "data.idx"))
    ∧ __len__ scenario_dataset fs' = (fs', inr 3)
    ∧ ∀ (i : nat) r, scenario_records !! i = Some r →
        __getitem__ scenario_dataset (Z.of_nat i) fs' = (fs', inr r).
Proof.
  apply (make_dataset_getitem_roundtrip 2 [enc_int; enc_str] [dec_int; dec_str]
           (Some [enc_int; enc_str]) scenario_records "data.bin" None ∅).
  - reflexivity.
  - reflexivity.
  - apply Forall_forall. intros r Hr. split.
    + unfold scenario_records in Hr.
      repeat (apply elem_of_cons in Hr as [->|Hr]);
        [reflexivity | reflexivity | reflexivity | by apply elem_of_nil in Hr].
    + by apply scenario_field_inverse.
  - vm_compute. discriminate.
  - vm_compute. reflexivity.
  - vm_compute. reflexivity.
Defined.

(** C2 — the scenario of the specification. Built from [(1, "a")],
    [(2, "bb")], [(3, "ccc")] with an 8-byte little-endian integer and a
    UTF-8 string per record, the dataset has length 3 and its record 1 is
    [[2, "bb"]]; after [quick_remove_at(0)] it has length 2, its record 0
    is [[3, "ccc"]] and its record 1 is [[2, "bb"]]. *)
Theorem scenario_build_then_remove :
  snd (make_dataset (iter_list scenario_records) "data.bin"
         [enc_int; enc_str] None ∅) = inr ("data.bin", "data.idx")
  ∧ snd (__len__ scenario_dataset scenario_built) = inr 3
  ∧ snd (__getitem__ scenario_dataset 1 scenario_built)
    = inr [VInt 2; VStr "bb"]
  ∧ snd (quick_remove_at scenario_dataset 0 scenario_built) = inr tt
  ∧ snd (__len__ scenario_dataset scenario_removed) = inr 2
  ∧ snd (__getitem__ scenario_dataset 0 scenario_removed)
    = inr [VInt 3; VStr "ccc"]
  ∧ snd (__getitem__ scenario_dataset 1 scenario_removed)
    = inr [VInt 2; VStr "bb"].
Proof. repeat split; vm_compute; reflexivity. Qed.

(** C3 — swap removal. On a well-formed dataset of [n] records,
    [quick_remove_at(i)] at a position [i] leaves the log as it is and
    [n - 1] records; if [i < n - 1] the record now read at [i] is the one
    that was read at [n - 1], every other position [j < n - 1] reads the
    record it read before; if [i = n - 1] the index keeps its first
    [n - 1] offsets as they were: its last entry is cut off and nothing
    is moved. *)
Theorem quick_remove_at_swaps_with_last {R W} (k : nat) (fs : fsys)
    (self : IndexedRecordDataset R W)
    (blocks : list (list (list byte))) (live : list nat)
    (decs : list (list byte → R)) (i : Z) :
  pair_ok k fs (path self) (index self) blocks live →
  deserializers self = Some decs → length decs = k →
  0 ≤ i < Z.of_nat (length live) →
  ∃ fs',
    quick_remove_at self i fs = (fs', inr tt)
    ∧ fs' !! path self = fs !! path self
    ∧ __len__ self fs' = (fs', inr (Z.of_nat (length live) - 1))
    ∧ (i < Z.of_nat (length live) - 1 →
       ∃ r, __getitem__ self (Z.of_nat (length live) - 1) fs = (fs, inr r)
            ∧ __getitem__ self i fs' = (fs', inr r))
    ∧ (∀ j, 0 ≤ j < Z.of_nat (length live) - 1 → j ≠ i →
       ∃ r, __getitem__ self j fs = (fs, inr r)
            ∧ __getitem__ self j fs' = (fs', inr r))
    ∧ (i = Z.of_nat (length live) - 1 →
       fs' !! index self
       = Some (index_file (take (length live - 1)
                                (map (block_offset blocks) live)))).
Proof.
  intros Hok Hd Hk Hi.
  assert (Hne : live ≠ []) by (destruct live; [simpl in Hi; lia | done]).
  destruct (Z_of_nat_complete i ltac:(lia)) as [m ->].
  destruct (quick_remove_at_pair_ok k fs self blocks live Hok (Z.of_nat m)
              Hne ltac:(lia))
    as (fs' & Hrm & Hok' & Hidx & Hframe).
  exists fs'. split; [exact Hrm|].
  split; [apply Hframe, (ok_paths _ _ _ _ _ _ Hok)|].
  split.
  { rewrite (pair_ok_len _ _ self _ _ Hok'), length_swap_remove.
    do 2 f_equal. lia. }
  split; [|split].
  - intros Hlt.
    destruct (lookup_lt_is_Some_2 live (length live - 1) ltac:(lia)) as [j Hj].
    exists (decode_record decs (block_at blocks j)). split.
    + replace (Z.of_nat (length live) - 1) with (Z.of_nat (length live - 1))
        by lia.
      eapply pair_ok_getitem_live; eauto.
    + eapply pair_ok_getitem_live; eauto.
      rewrite swap_remove_lookup_eq by lia. exact Hj.
  - intros j Hj Hji.
    destruct (lookup_lt_is_Some_2 live (Z.to_nat j) ltac:(lia)) as [b Hb].
    exists (decode_record decs (block_at blocks b)).
    rewrite <- (Z2Nat.id j) by lia. split.
    + eapply pair_ok_getitem_live; eauto.
    + eapply pair_ok_getitem_live; eauto.
      rewrite swap_remove_lookup_ne by lia. exact Hb.
  - intros Heq. rewrite Hidx, swap_remove_last by (rewrite length_map; lia).
    by rewrite length_map.
Qed.

Lemma scenario_built_pair_ok :
  pair_ok 2 scenario_built "data.bin" "data.idx"
    (map (encode_record [enc_int; enc_str]) scenario_records) [0; 1; 2]%nat.
Proof.
  constructor.
  - discriminate.
  - vm_compute. reflexivity.
  - repeat constructor.
  - vm_compute. reflexivity.
  - repeat constructor.
  - apply (NoDup_seq 0 3).
  - vm_compute. reflexivity.
  - vm_compute. reflexivity.
Defined.

Lemma quick_remove_at_swaps_with_last_witness :
  ∃ fs',
    quick_remove_at scenario_dataset 0 scenario_built = (fs', inr tt)
    ∧ fs' !! "data.bin" = scenario_built !! "data.bin"
    ∧ __len__ scenario_dataset fs' = (fs', inr 2)
    ∧ ∃ r, __getitem__ scenario_dataset 2 scenario_built
           = (scenario_built, inr r)
           ∧ __getitem__ scenario_dataset 0 fs' = (fs', inr r).
Proof.
  destruct (quick_remove_at_swaps_with_last 2 scenario_built scenario_dataset
              (map (encode_record [enc_int; enc_str]) scenario_records)
              [0; 1; 2]%nat [dec_int; dec_str] 0
              scenario_built_pair_ok eq_refl eq_refl)
    as (fs' & H1 & H2 & H3 & H4 & _).
  - cbn. lia.
  - exists fs'. repeat split; try assumption. apply H4. cbn. lia.
Defined.

(** C5 — when [append] starts the log anew. The index holds the offsets
    [offs] (or is missing, when there are none). Whatever the call, the
    log is first brought to a base: the reserved header alone if there
    was no log file or if the index lists no entry, even when a log file
    with other content was there; the log as it was otherwise. With
    serializers and enough items, [append] then succeeds and the log is
    the base followed by the block of the new record; with too few items
    or without serializers it fails and the log is the base. *)
Theorem append_resets_or_extends_log {R W} (self : IndexedRecordDataset R W)
    (fs : fsys) (offs : list Z) (items : list W) :
  index_holds fs (index self) offs →
  path self ≠ index self →
  __len__ self fs = (fs, inr (Z.of_nat (length offs)))
  ∧ (fs !! path self = None ∨ offs = [] →
     log_base fs (path self) offs = RESERVED_BYTES)
  ∧ (∀ c, fs !! path self = Some c → offs ≠ [] →
     log_base fs (path self) offs = c)
  ∧ (∀ sers,
       serializers self = Some sers →
       (length sers ≤ length items)%nat →
       Z.of_nat (length (log_base fs (path self) offs
                         ++ encode_block (encode_record sers items))) < Q_MAX →
       ∃ fs',
         append self items fs = (fs', inr tt)
         ∧ fs' !! path self
           = Some (log_base fs (path self) offs
                   ++ encode_block (encode_record sers items)))
  ∧ (∀ sers,
       serializers self = Some sers →
       (length items < length sers)%nat →
       ∃ fs',
         append self items fs = (fs', inl IndexError)
         ∧ fs' !! path self = Some (log_base fs (path self) offs))
  ∧ (serializers self = None →
     ∃ fs',
       append self items fs
       = (fs', inl (AssertionError (Some NEED_SERIALIZERS)))
       ∧ fs' !! path self = Some (log_base fs (path self) offs)).
Proof.
  intros Hidx Hp.
  split; [by apply index_holds_len|].
  split; [|split].
  { unfold log_base. intros [Hnone | ->].
    - by rewrite Hnone.
    - destruct (fs !! path self); [|done]. by rewrite bool_decide_true. }
  { unfold log_base. intros c Hc Hne. rewrite Hc. by rewrite bool_decide_false. }
  split; [|split].
  - intros sers Hs Hlen Hsz. eexists.
    split; [apply (append_files self fs offs Hidx sers items Hs Hp Hlen Hsz)|].
    apply lookup_insert_eq.
  - intros sers Hs Hlen. eexists.
    split; [apply (append_short_items self fs offs Hidx sers items Hs Hlen)|].
    apply lookup_insert_eq.
  - intros Hs. eexists.
    split; [apply (append_no_serializers self fs offs Hidx items Hs)|].
    apply lookup_insert_eq.
Qed.

Lemma scenario_built_index_holds :
  index_holds scenario_built (index scenario_dataset) [1024; 1049; 1075].
Proof. split; [vm_compute; reflexivity | left; vm_compute; reflexivity]. Defined.

Lemma append_resets_or_extends_log_witness :
  ∃ fs',
    append scenario_dataset [VInt 4; VStr "dddd"] scenario_built = (fs', inr tt)
    ∧ fs' !! path scenario_dataset
      = Some (content scenario_built "data.bin"
              ++ encode_block (encode_record [enc_int; enc_str]
                                             [VInt 4; VStr "dddd"])).
Proof.
  assert (Hp : path scenario_dataset ≠ index scenario_dataset) by discriminate.
  destruct (append_resets_or_extends_log scenario_dataset scenario_built
              [1024; 1049; 1075] [VInt 4; VStr "dddd"]
              scenario_built_index_holds Hp)
    as (_ & _ & Hbase & Hrun & _).
  destruct (Hrun [enc_int; enc_str] eq_refl) as (fs' & H1 & H2).
  - cbn. lia.
  - vm_compute. reflexivity.
  - exists fs'. split; [exact H1|].
    rewrite H2.
    rewrite (Hbase (content scenario_built "data.bin"));
      [reflexivity | vm_compute; reflexivity | discriminate].
Defined.

(** C7 — bounds. When [length()] returns [n] and [n ≤ i], [get(i)] on the
    index file fails at its assertion, and so does [get(i)] on the
    dataset: with deserializers at the assertion of the index, without
    them at the assertion that asks for them. Nothing is returned. *)
Theorem getitem_out_of_bounds_fails {R W} (self : IndexedRecordDataset R W)
    (fs : fsys) (n i : Z) :
  snd (IndexFile.len (index self) fs) = inr n → n ≤ i →
  IndexFile.__getitem__ (index self) i fs = (fs, inl (AssertionError None))
  ∧ (is_Some (deserializers self) →
     __getitem__ self i fs = (fs, inl (AssertionError None)))
  ∧ ∃ msg, __getitem__ self i fs = (fs, inl (AssertionError msg)).
Proof.
  intros Hn Hi.
  assert (Hlen : IndexFile.len (index self) fs = (fs, inr n)).
  { pose proof (len_pure (index self) fs) as Hp.
    destruct (IndexFile.len (index self) fs) as [fs0 r]. simpl in *. congruence. }
  pose proof (getitem_out_of_range _ _ _ _ Hlen Hi) as Hget.
  split; [exact Hget|].
  unfold __getitem__. destruct (deserializers self) as [decs|].
  - rewrite (bind_inl _ _ _ _ _ Hget). eauto.
  - split; [by intros [? ?]|]. eauto.
Qed.

Lemma getitem_out_of_bounds_fails_witness :
  snd (IndexFile.len "data.idx" scenario_built) = inr 3
  ∧ __getitem__ scenario_dataset 3 scenario_built
    = (scenario_built, inl (AssertionError None)).
Proof.
  assert (H : snd (IndexFile.len (index scenario_dataset) scenario_built) = inr 3)
    by (vm_compute; reflexivity).
  split; [exact H|].
  apply (getitem_out_of_bounds_fails scenario_dataset scenario_built 3 3 H);
    [lia | cbn; eauto].
Defined.

(** C8 — [append] without serializers. It fails at the assertion that
    asks for them, and the index is as it was; the log has been replaced
    by the reserved header alone if there was no log file or if the
    index lists no entry, and the file system is as it was otherwise. No
    other file changes. *)
Theorem append_without_serializers_fails {R W}
    (self : IndexedRecordDataset R W) (fs : fsys) (offs : list Z)
    (items : list W) :
  index_holds fs (index self) offs →
  serializers self = None →
  path self ≠ index self →
  ∃ fs',
    append self items fs = (fs', inl (AssertionError (Some NEED_SERIALIZERS)))
    ∧ fs' !! index self = fs !! index self
    ∧ (fs !! path self = None ∨ offs = [] →
       fs' !! path self = Some RESERVED_BYTES)
    ∧ (is_Some (fs !! path self) → offs ≠ [] → fs' = fs)
    ∧ ∀ p, p ≠ path self → fs' !! p = fs !! p.
Proof.
  intros Hidx Hs Hp. eexists.
  split; [apply (append_no_serializers self fs offs Hidx items Hs)|].
  split; [by rewrite lookup_insert_ne|].
  unfold log_base. split; [|split].
  - intros [Hnone | ->]; rewrite lookup_insert_eq.
    + by rewrite Hnone.
    + destruct (fs !! path self); [|done]. by rewrite bool_decide_true.
  - intros [c Hc] Hne. rewrite Hc, bool_decide_false by done.
    by apply insert_id.
  - intros p Hpp. by rewrite lookup_insert_ne.
Qed.

Lemma append_without_serializers_fails_witness :
  ∃ fs',
    append (__init__ (W := value) "data.bin" (Some [dec_int; dec_str]) None None)
           [VInt 4; VStr "dddd"] (<["data.bin" := [x01]]> ∅)
    = (fs', inl (AssertionError (Some NEED_SERIALIZERS)))
    ∧ fs' !! "data.idx" = None
    ∧ fs' !! "data.bin" = Some RESERVED_BYTES.
Proof.
  destruct (append_without_serializers_fails
              (__init__ (W := value) "data.bin" (Some [dec_int; dec_str])
                        None None)
              (<["data.bin" := [x01]]> ∅) [] [VInt 4; VStr "dddd"])
    as (fs' & H1 & H2 & H3 & _).
  - split; [vm_compute; reflexivity | right; split; [|reflexivity]].
    vm_compute. reflexivity.
  - reflexivity.
  - discriminate.
  - exists fs'. split; [exact H1|]. split.
    + etrans; [exact H2|]. vm_compute. reflexivity.
    + apply H3. by right.
Defined.

(** C9 — [quick_remove_at] checks no bounds. On an index file of
    [n ≥ 1] offsets and for every [i ≥ n - 1], also past the end, it
    succeeds and leaves the index file of the first [n - 1] offsets: the
    last entry is cut off, the count is [n - 1], the other entries are
    as they were. *)
Theorem quick_remove_at_past_the_end {R W} (self : IndexedRecordDataset R W)
    (fs : fsys) (offs : list Z) (i : Z) :
  fs !! index self = Some (index_file offs) →
  offs ≠ [] → Z.of_nat (length offs) < SSIZE_MAX →
  Z.of_nat (length offs) - 1 ≤ i →
  IndexFile.quick_remove_at (index self) i fs
  = (<[index self := index_file (take (length offs - 1) offs)]> fs, inr tt)
  ∧ quick_remove_at self i fs
    = (<[index self := index_file (take (length offs - 1) offs)]> fs, inr tt)
  ∧ IndexFile.len (index self)
      (<[index self := index_file (take (length offs - 1) offs)]> fs)
    = (<[index self := index_file (take (length offs - 1) offs)]> fs,
       inr (Z.of_nat (length offs) - 1)).
Proof.
  intros Hc Hne Hn Hi.
  assert (Hl : (0 < length offs)%nat) by (destruct offs; [done | simpl; lia]).
  assert (Hrm : IndexFile.quick_remove_at (index self) i fs
                = (<[index self := index_file (take (length offs - 1) offs)]> fs,
                   inr tt)).
  { rewrite (quick_remove_at_index_file _ _ offs) by (try done; lia).
    by rewrite swap_remove_last. }
  split; [exact Hrm|]. split; [exact Hrm|].
  rewrite (len_index_file _ _ (take (length offs - 1) offs)).
  - rewrite length_take. do 2 f_equal. lia.
  - apply lookup_insert_eq.
  - rewrite length_take. lia.
Qed.

Lemma quick_remove_at_past_the_end_witness :
  IndexFile.quick_remove_at (index scenario_dataset) 7 scenario_built
  = (<[index scenario_dataset :=
         index_file (take (length [1024; 1049; 1075] - 1) [1024; 1049; 1075])]>
       scenario_built,
     inr tt).
Proof.
  destruct (quick_remove_at_past_the_end scenario_dataset scenario_built
              [1024; 1049; 1075] 7) as [H _].
  - vm_compute. reflexivity.
  - discriminate.
  - vm_compute. reflexivity.
  - cbn. lia.
  - exact H.
Defined.

(** C10 — the bounds check lets [-1] through. On an index file whose
    first eight bytes hold the count [n], [get(-1)] returns [n] itself,
    and [get(-1)] on a dataset with deserializers reads a record at the
    byte [n] of the log. *)
Theorem getitem_minus_one_returns_count {R W} (self : IndexedRecordDataset R W)
    (fs : fsys) (c : list byte) (n : Z) :
  fs !! index self = Some c → (8 ≤ length c)%nat →
  le_value (take 8 c) = n → n < SSIZE_MAX →
  IndexFile.__getitem__ (index self) (-1) fs = (fs, inr n)
  ∧ ∀ decs, deserializers self = Some decs →
      __getitem__ self (-1) fs = read_record_at (path self) decs n fs.
Proof.
  intros Hc Hl Hv Hn.
  assert (H8 : length (take 8 c) = 8%nat) by (rewrite length_take; lia).
  pose proof (le_value_8_u64 _ H8) as Hu. rewrite Hv in Hu.
  assert (Hfile : fs !! index self = Some (le_bytes 8 n ++ drop 8 c))
    by (by rewrite Hc, <- Hv, <- file_head).
  assert (Hget : IndexFile.__getitem__ (index self) (-1) fs = (fs, inr n)).
  { unfold IndexFile.__getitem__.
    io_step ltac:(eapply len_head; [exact Hfile | unfold is_u64 in Hu; lia]).
    destruct (Z.ltb_spec (-1) n); [|unfold is_u64 in Hu; lia].
    unfold py_assert. io_step ltac:(reflexivity).
    apply (read_word_at _ fs [n] (drop 8 c) _ 0 n); try done. }
  split; [exact Hget|].
  intros decs Hd. unfold __getitem__. rewrite Hd.
  by rewrite (bind_inr _ _ _ _ _ Hget).
Qed.

Lemma getitem_minus_one_returns_count_witness :
  IndexFile.__getitem__ (index scenario_dataset) (-1) scenario_built
  = (scenario_built, inr 3).
Proof.
  destruct (getitem_minus_one_returns_count scenario_dataset scenario_built
              (content scenario_built "data.idx") 3) as [H _].
  - vm_compute. reflexivity.
  - vm_compute. lia.
  - vm_compute. reflexivity.
  - vm_compute. reflexivity.
  - exact H.
Defined.

Lemma scenario_removed_pair_ok :
  pair_ok 2 scenario_removed "data.bin" "data.idx"
    (map (encode_record [enc_int; enc_str]) scenario_records) [2; 1]%nat.
Proof.
  constructor.
  - discriminate.
  - vm_compute. reflexivity.
  - repeat constructor.
  - vm_compute. reflexivity.
  - repeat constructor.
  - apply NoDup_cons. split; [|apply NoDup_singleton].
    intros H. apply list_elem_of_singleton in H. discriminate.
  - vm_compute. reflexivity.
  - vm_compute. reflexivity.
Defined.




(** C6, as it is stated, fails for records without fields: a block is
    then empty, and the offset of the last one is the size of the log,
    not below it. *)
Lemma index_invariant_fails_without_fields :
  snd (make_dataset (iter_list [[]]) "data.bin" (@nil (value → list byte))
         None ∅) = inr ("data.bin", "data.idx")
  ∧ ¬ index_invariant
        (fst (make_dataset (iter_list [[]]) "data.bin"
                (@nil (value → list byte)) None ∅))
        "data.bin" "data.idx".
Proof.
  split; [vm_compute; reflexivity|].
  intros (blocks & offs & Hlog & Hidx & Hall).
  assert (Hl : fst (make_dataset (iter_list [[]]) "data.bin"
                      (@nil (value → list byte)) None ∅) !! "data.bin"
               = Some RESERVED_BYTES) by (vm_compute; reflexivity).
  assert (Hi : fst (make_dataset (iter_list [[]]) "data.bin"
                      (@nil (value → list byte)) None ∅) !! "data.idx"
               = Some (index_file [1024])) by (vm_compute; reflexivity).
  rewrite Hl in Hlog. rewrite Hi in Hidx.
  apply (inj Some) in Hlog. apply (inj Some) in Hidx.
  apply (f_equal length) in Hidx.
  unfold index_file in Hidx. rewrite !length_encode_words in Hidx.
  cbn [length] in Hidx.
  destruct offs as [|o [|o' offs]]; cbn [length] in Hidx; try lia.
  apply Forall_cons in Hall as [[Hlt (j & _ & ->)] _].
  rewrite <- Hlog in Hlt.
  pose proof (block_offset_reserved blocks j). lia.
Qed.

(** C6 (amended) — the invariant of the index, for records of at least
    one field. A well-formed pair satisfies it: the count at the head of
    the index is the logical length, and every offset is below the size
    of the log and where a block begins. [make_dataset] makes such a
    pair, [append] and [quick_remove_at] keep the pair such, and
    [defrag] makes such a pair of its output; the sizes fit a signed
    64-bit word. *)
Theorem operations_keep_index_invariant {V} (k : nat)
    (sers : list (V → list byte)) (decs : list (list byte → V)) :
  (0 < k)%nat → length sers = k → length decs = k →
  (∀ (fs : fsys) (self : IndexedRecordDataset V V) blocks live,
     pair_ok k fs (path self) (index self) blocks live →
     index_invariant fs (path self) (index self)
     ∧ __len__ self fs = (fs, inr (Z.of_nat (length live)))
     ∧ fs !! index self = Some (index_file (map (block_offset blocks) live)))
  ∧ (∀ (fs : fsys) records output index_path,
       default_index_path output index_path ≠ output →
       Forall (λ r, (k ≤ length r)%nat) records →
       Z.of_nat (length (log_file (map (encode_record sers) records)))
         < SSIZE_MAX →
       Z.of_nat (length records) < SSIZE_MAX →
       ∃ fs',
         make_dataset (iter_list records) output sers index_path fs
         = (fs', inr (output, default_index_path output index_path))
         ∧ pair_ok k fs' output (default_index_path output index_path)
             (map (encode_record sers) records) (seq 0 (length records))
         ∧ index_invariant fs' output (default_index_path output index_path))
  ∧ (∀ (fs : fsys) (self : IndexedRecordDataset V V) blocks live items,
       pair_ok k fs (path self) (index self) blocks live →
       serializers self = Some sers →
       (k ≤ length items)%nat →
       Z.of_nat (length (log_file (kept_blocks blocks live
                                   ++ [encode_record sers items])))
         < SSIZE_MAX →
       Z.of_nat (length live) + 1 < SSIZE_MAX →
       ∃ fs',
         append self items fs = (fs', inr tt)
         ∧ pair_ok k fs' (path self) (index self)
             (kept_blocks blocks live ++ [encode_record sers items])
             (live ++ [length (kept_blocks blocks live)])
         ∧ index_invariant fs' (path self) (index self))
  ∧ (∀ (fs : fsys) (self : IndexedRecordDataset V V) blocks live i,
       pair_ok k fs (path self) (index self) blocks live →
       live ≠ [] → -1 ≤ i →
       ∃ fs',
         quick_remove_at self i fs = (fs', inr tt)
         ∧ pair_ok k fs' (path self) (index self) blocks
             (swap_remove 0%nat i live)
         ∧ index_invariant fs' (path self) (index self))
  ∧ (∀ (fs : fsys) (self : IndexedRecordDataset V V) blocks live out,
       pair_ok k fs (path self) (index self) blocks live →
       deserializers self = Some decs →
       out ≠ path self → out ≠ index self →
       default_index_path out None ≠ out →
       ∃ fs',
         defrag self out fs = (fs', inr (out, default_index_path out None))
         ∧ pair_ok k fs' out (default_index_path out None)
             (live_blocks blocks live) (seq 0 (length live))
         ∧ index_invariant fs' out (default_index_path out None)).
Proof.
  intros Hpos Hs Hd. split; [|split; [|split; [|split]]].
  - intros fs self blocks live Hok. split; [|split].
    + by eapply pair_ok_index_invariant.
    + apply (pair_ok_len k fs self blocks live Hok).
    + apply (ok_index _ _ _ _ _ _ Hok).
  - intros fs records output index_path Hp Hlen Hsz Hn.
    destruct (make_dataset_pair_ok output sers records index_path fs)
      as (fs' & Hrun & Hok' & _); [done | by rewrite Hs | done | done |].
    rewrite Hs in Hok'. exists fs'. split; [done|]. split; [done|].
    by eapply pair_ok_index_invariant.
  - intros fs self blocks live items Hok Hser Hlen Hsz Hn.
    destruct (append_pair_ok k fs self blocks live Hok sers items)
      as (fs' & Hrun & Hok' & _); try done.
    exists fs'. split; [done|]. split; [done|].
    by eapply pair_ok_index_invariant.
  - intros fs self blocks live i Hok Hne Hi.
    destruct (quick_remove_at_pair_ok k fs self blocks live Hok i Hne Hi)
      as (fs' & Hrun & Hok' & _).
    exists fs'. split; [done|]. split; [done|].
    by eapply pair_ok_index_invariant.
  - intros fs self blocks live out Hok Hdes Ho1 Ho2 Ho3.
    destruct (defrag_pair_ok k fs self blocks live decs out)
      as (fs' & Hrun & Hok' & _); try done.
    exists fs'. split; [done|]. split; [done|].
    by eapply pair_ok_index_invariant.
Qed.

Lemma operations_keep_index_invariant_witness :
  index_invariant scenario_built "data.bin" "data.idx"
  ∧ __len__ scenario_dataset scenario_built = (scenario_built, inr 3).
Proof.
  destruct (operations_keep_index_invariant 2 [enc_int; enc_str]
              [dec_int; dec_str] ltac:(lia) eq_refl eq_refl)
    as (Hinv & _).
  destruct (Hinv scenario_built scenario_dataset _ _ scenario_built_pair_ok)
    as (H1 & H2 & _).
  split; [exact H1 | exact H2].
Defined.

(** * Further properties of [IndexFile] *)


Lemma map_lookup_seq {A} (d : A) (l : list A) :
  map (λ i, default d (l !! i)) (seq 0 (length l)) = l.
Proof.
  apply list_eq. intros i. rewrite list_lookup_fmap.
  destruct (l !! i) as [x|] eqn:Hi.
  - rewrite (lookup_seq_lt 0 (length l) i) by (eapply lookup_lt_Some; eauto).
    cbn. by rewrite Hi.
  - rewrite lookup_seq_ge; [done|]. by apply lookup_ge_None.
Qed.

(** Items that succeed without touching the file system are collected
    in their order. *)
Lemma collect_map {A B} (f : A → IO B) (g : A → B) (l : list A) (fs : fsys) :
  (∀ x, x ∈ l → f x fs = (fs, inr (g x))) →
  collect (map f l) fs = (fs, inr (map g l)).
Proof.
  unfold collect. induction l as [|x l IH]; intros H; [done|].
  cbn [map mapM].
  io_step ltac:(apply H; apply list_elem_of_here).
  io_step ltac:(apply IH; intros y Hy; apply H; by apply list_elem_of_further).
  reflexivity.
Qed.

Lemma index_iter_pending (p : string) (fs : fsys) (offs : list Z) :
  fs !! p = Some (index_file offs) →
  Z.of_nat (length offs) < SSIZE_MAX →
  IndexFile.__iter__ p fs
  = (fs, inr (map (λ i, IndexFile.__getitem__ p (Z.of_nat i))
                  (seq 0 (length offs)))).
Proof.
  intros Hc Hn. unfold IndexFile.__iter__.
  io_step ltac:(eapply len_index_file; eauto).
  by rewrite Nat2Z.id.
Qed.

(** [IndexFile.__setitem__] at a position of the file of words: the
    count is word 0, the offset [i] is word [i + 1]. *)
Lemma setitem_word (p : string) (fs : fsys) (ws : list Z) (i v : Z) :
  fs !! p = Some (encode_words ws) → is_u64 v →
  -1 ≤ i → i + 1 < Z.of_nat (length ws) →
  IndexFile.__setitem__ p i v fs
  = (<[p := encode_words (<[Z.to_nat (i + 1) := v]> ws)]> fs, inr tt).
Proof.
  intros Hc Hv Hi Hlt. unfold IndexFile.__setitem__.
  io_step ltac:(eapply open_rb_Some; eauto).
  io_step ltac:(apply seek_nonneg; lia).
  erewrite bind_inr by (unfold lift; rewrite (pack_Q_u64 v Hv); reflexivity).
  replace (Z.to_nat (8 * (i + 1))) with (8 * Z.to_nat (i + 1))%nat by lia.
  io_step ltac:(apply (write_word_io p fs ws (Z.to_nat (i + 1)) v Hc); lia).
  reflexivity.
Qed.


(** X1 — the index file round trip. [IndexFile.write] of offsets that
    are unsigned 64-bit words succeeds whatever the file held; then
    [len] is their number, [__getitem__] at position [i] is the [i]-th
    offset, and the iteration gives the offsets in their order. *)
Theorem index_write_then_read (p : string) (fs : fsys) (offs : list Z) :
  Forall is_u64 offs → Z.of_nat (length offs) < SSIZE_MAX →
  ∃ fs',
    IndexFile.write p offs fs = (fs', inr tt)
    ∧ IndexFile.len p fs' = (fs', inr (Z.of_nat (length offs)))
    ∧ (∀ (i : nat) o, offs !! i = Some o →
         IndexFile.__getitem__ p (Z.of_nat i) fs' = (fs', inr o))
    ∧ (let* it := IndexFile.__iter__ p in collect it) fs' = (fs', inr offs)
    ∧ ∀ q, q ≠ p → fs' !! q = fs !! q.
Proof.
  intros Hu Hn. exists (<[p := index_file offs]> fs).
  assert (Hc : <[p := index_file offs]> fs !! p = Some (index_file offs))
    by apply lookup_insert_eq.
  assert (Hget : ∀ (i : nat) o, offs !! i = Some o →
            IndexFile.__getitem__ p (Z.of_nat i) (<[p := index_file offs]> fs)
            = (<[p := index_file offs]> fs, inr o)).
  { intros i o Hi. eapply getitem_index_file; eauto.
    rewrite Forall_forall in Hu. apply Hu.
    eapply list_elem_of_lookup_2; eauto. }
  split; [|split; [|split; [|split]]].
  - apply write_offsets_spec; [unfold SSIZE_MAX, Q_MAX in *; lia | done].
  - by apply len_index_file.
  - exact Hget.
  - io_step ltac:(by apply index_iter_pending).
    rewrite (collect_map _ (λ i, default 0 (offs !! i))).
    + by rewrite map_lookup_seq.
    + intros i Hi. apply elem_of_seq in Hi.
      destruct (lookup_lt_is_Some_2 offs i ltac:(lia)) as [o Ho].
      rewrite Ho. by apply Hget.
  - intros q Hq. by rewrite lookup_insert_ne.
Qed.

Lemma index_write_then_read_witness :
  ∃ fs',
    IndexFile.write "a.idx" [1024; 1049] ∅ = (fs', inr tt)
    ∧ IndexFile.len "a.idx" fs' = (fs', inr (Z.of_nat (length [1024; 1049])))
    ∧ (let* it := IndexFile.__iter__ "a.idx" in collect it) fs'
      = (fs', inr [1024; 1049]).
Proof.
  destruct (index_write_then_read "a.idx" ∅ [1024; 1049])
    as (fs' & H1 & H2 & _ & H3 & _).
  - repeat constructor; vm_compute; congruence.
  - vm_compute. reflexivity.
  - exists fs'. split; [exact H1|]. split; [exact H2 | exact H3].
Defined.

(** X2 — a missing index file is an empty index. [len] is 0,
    [__getitem__] at any [i >= 0] fails at its assertion and at any
    [i < 0] when it opens the file, and none of them creates the file. *)
Theorem index_missing_is_empty (p : string) (fs : fsys) (i : Z) :
  fs !! p = None →
  IndexFile.len p fs = (fs, inr 0)
  ∧ (0 ≤ i → IndexFile.__getitem__ p i fs = (fs, inl (AssertionError None)))
  ∧ (i < 0 → IndexFile.__getitem__ p i fs = (fs, inl FileNotFoundError)).
Proof.
  intros Hc. pose proof (len_missing p fs Hc) as Hl.
  split; [exact Hl|]. split.
  - intros Hi. by apply (getitem_out_of_range p fs 0 i).
  - intros Hi. unfold IndexFile.__getitem__.
    io_step ltac:(exact Hl).
    destruct (Z.ltb_spec i 0); [|lia].
    unfold py_assert. io_step ltac:(reflexivity).
    erewrite bind_inl; [done|]. unfold open_rb. by rewrite Hc.
Qed.

Lemma index_missing_is_empty_witness :
  IndexFile.len "a.idx" ∅ = (∅, inr 0).
Proof.
  destruct (index_missing_is_empty "a.idx" ∅ 0) as [H _].
  - vm_compute. reflexivity.
  - exact H.
Defined.

(** X3 — [IndexFile.append] then read. On an index that holds [offs] (or
    is missing, when there are none), [append(v)] succeeds; then [len]
    is one more, position [n] holds [v] and every position before holds
    what it held. *)
Theorem index_append_then_read (p : string) (fs : fsys) (offs : list Z) (v : Z) :
  index_holds fs p offs → Forall is_u64 offs → is_u64 v →
  Z.of_nat (length offs) + 1 < SSIZE_MAX →
  ∃ fs',
    IndexFile.append p v fs = (fs', inr tt)
    ∧ fs' !! p = Some (index_file (offs ++ [v]))
    ∧ IndexFile.len p fs' = (fs', inr (Z.of_nat (length offs) + 1))
    ∧ IndexFile.__getitem__ p (Z.of_nat (length offs)) fs' = (fs', inr v)
    ∧ ∀ (i : nat) o, offs !! i = Some o →
        IndexFile.__getitem__ p (Z.of_nat i) fs' = (fs', inr o).
Proof.
  intros [Hn Hc] Hu Hv Hn'. exists (<[p := index_file (offs ++ [v])]> fs).
  assert (Hf : <[p := index_file (offs ++ [v])]> fs !! p
               = Some (index_file (offs ++ [v]))) by apply lookup_insert_eq.
  assert (Hlen : Z.of_nat (length (offs ++ [v])) < SSIZE_MAX)
    by (rewrite length_app; simpl; lia).
  split; [by apply append_index_file|]. split; [exact Hf|].
  split; [|split].
  - rewrite (len_index_file _ _ _ Hf Hlen), length_app. simpl.
    do 2 f_equal. lia.
  - apply (getitem_index_file _ _ _ _ _ Hf Hlen); [|done].
    rewrite lookup_app_r by lia. by rewrite Nat.sub_diag.
  - intros i o Hi. apply (getitem_index_file _ _ _ _ _ Hf Hlen).
    + rewrite lookup_app_l; [done|]. eapply lookup_lt_Some; eauto.
    + rewrite Forall_forall in Hu. apply Hu.
      eapply list_elem_of_lookup_2; eauto.
Qed.

Lemma index_append_then_read_witness :
  ∃ fs',
    IndexFile.append "a.idx" 1024 ∅ = (fs', inr tt)
    ∧ fs' !! "a.idx" = Some (index_file ([] ++ [1024])).
Proof.
  destruct (index_append_then_read "a.idx" ∅ [] 1024)
    as (fs' & H1 & H2 & _).
  - split; [vm_compute; reflexivity | right; split; vm_compute; reflexivity].
  - constructor.
  - vm_compute. split; congruence.
  - vm_compute. reflexivity.
  - exists fs'. split; [exact H1 | exact H2].
Defined.

(** X4 — [IndexFile.__setitem__] within the index. For [0 <= i < n] it
    replaces the offset at [i] and nothing else: the count and the other
    offsets are as they were. *)
Theorem index_setitem_in_range (p : string) (fs : fsys) (offs : list Z)
    (i : nat) (v : Z) :
  fs !! p = Some (index_file offs) → (i < length offs)%nat → is_u64 v →
  IndexFile.__setitem__ p (Z.of_nat i) v fs
  = (<[p := index_file (<[i := v]> offs)]> fs, inr tt)
  ∧ (Z.of_nat (length offs) < SSIZE_MAX →
     IndexFile.__getitem__ p (Z.of_nat i)
       (<[p := index_file (<[i := v]> offs)]> fs)
     = (<[p := index_file (<[i := v]> offs)]> fs, inr v)).
Proof.
  intros Hc Hi Hv. split.
  - rewrite (setitem_word p fs (Z.of_nat (length offs) :: offs))
      by (try done; cbn [length]; lia).
    replace (Z.to_nat (Z.of_nat i + 1)) with (S i) by lia.
    unfold index_file. cbn [list_insert insert]. by rewrite length_insert.
  - intros Hn. apply (getitem_index_file _ _ (<[i := v]> offs));
      [apply lookup_insert_eq | by rewrite length_insert
       | by apply list_lookup_insert_eq | done].
Qed.

Lemma index_setitem_in_range_witness :
  IndexFile.__setitem__ "a.idx" (Z.of_nat 1) 7
    (<["a.idx" := index_file [1024; 1049]]> ∅)
  = (<["a.idx" := index_file (<[1%nat := 7]> [1024; 1049])]>
       (<["a.idx" := index_file [1024; 1049]]> ∅),
     inr tt).
Proof.
  destruct (index_setitem_in_range "a.idx"
              (<["a.idx" := index_file [1024; 1049]]> ∅) [1024; 1049] 1 7)
    as [H _].
  - apply lookup_insert_eq.
  - cbn. lia.
  - vm_compute. split; congruence.
  - exact H.
Defined.




(** X6 — [quick_remove_at] on an index without entries. If the index
    file is missing it fails when it opens the file and nothing changes.
    If the file holds the count 0, then for every [i >= -1] it fails
    when it packs the count [-1], after it has cut the eight bytes of
    the count off: the index file is left empty and its length cannot
    be read any more. *)
Theorem quick_remove_at_on_empty_index (p : string) (fs : fsys) (i : Z) :
  -1 ≤ i →
  (fs !! p = None →
   IndexFile.quick_remove_at p i fs = (fs, inl FileNotFoundError))
  ∧ (fs !! p = Some (index_file []) →
     IndexFile.quick_remove_at p i fs = (<[p := []]> fs, inl StructError)
     ∧ IndexFile.len p (<[p := []]> fs) = (<[p := []]> fs, inl StructError)).
Proof.
  intros Hi. split.
  - intros Hc. unfold IndexFile.quick_remove_at.
    io_step ltac:(by apply len_missing).
    erewrite bind_inl; [done|]. unfold open_rb_plus, open_rb. by rewrite Hc.
  - intros Hc. split.
    + unfold IndexFile.quick_remove_at.
      io_step ltac:(apply (len_index_file p fs []); [done | by vm_compute]).
      io_step ltac:(eapply open_rb_Some; eauto).
      io_step ltac:(eapply seek_end_some; [eauto | by vm_compute]).
      io_step ltac:(eapply read_some; [eauto | by vm_compute]).
      io_step ltac:(eapply seek_end_some; [eauto | by vm_compute]).
      io_step ltac:(eapply truncate_some; [eauto | vm_compute; lia]).
      destruct (Z.ltb_spec i (Z.of_nat (length (@nil Z)) - 1));
        [cbn [length] in *; lia|].
      io_step ltac:(reflexivity).
      io_step ltac:(apply seek_nonneg; lia).
      reflexivity.
    + unfold IndexFile.len, IndexFile.__len__.
      erewrite bind_inl; [done|].
      io_step ltac:(eapply isfile_Some; apply lookup_insert_eq).
      io_step ltac:(eapply open_rb_Some; apply lookup_insert_eq).
      io_step ltac:(apply seek_nonneg; lia).
      io_step ltac:(eapply read_some; [apply lookup_insert_eq | by vm_compute]).
      reflexivity.
Qed.

Lemma quick_remove_at_on_empty_index_witness :
  IndexFile.quick_remove_at "a.idx" 0 (<["a.idx" := index_file []]> ∅)
  = (<["a.idx" := []]> (<["a.idx" := index_file []]> ∅), inl StructError).
Proof.
  destruct (quick_remove_at_on_empty_index "a.idx"
              (<["a.idx" := index_file []]> ∅) 0) as [_ H].
  - lia.
  - destruct H as [H _]; [apply lookup_insert_eq | exact H].
Defined.





(** * Further properties of the builder and of the dataset *)

Lemma foldM_app {A S} (f : S → A → IO S) (s : S) (l1 l2 : list A) (fs : fsys) :
  foldM f s (l1 ++ l2) fs
  = (let* s' := foldM f s l1 in foldM f s' l2) fs.
Proof.
  revert s fs. induction l1 as [|a l1 IH]; intros s fs.
  - reflexivity.
  - cbn [app foldM]. unfold bind.
    destruct (f s a fs) as [fs1 [e|s1]]; [done|].
    rewrite IH. reflexivity.
Qed.

Lemma Forall2_ret {V} (records : list (list V)) :
  Forall2 (λ (next : IO (list V)) r, ∀ fs : fsys, True → next fs = (fs, inr r))
          (map ret records) records.
Proof. induction records; constructor; auto. Qed.

(** X9 — a build that stops at a record with too few items. When the
    records before it have enough items each, [make_dataset] raises the
    [IndexError] of the missing item; the log then holds the reserved
    bytes and the blocks of the records before, and no index file has
    been written. *)
Theorem make_dataset_stops_at_short_record {V} (output : string)
    (sers : list (V → list byte)) (good : list (list V)) (bad : list V)
    (rest : list (list V)) (index_path : option string) (fs : fsys) :
  Forall (λ r, (length sers ≤ length r)%nat) good →
  (length bad < length sers)%nat →
  Z.of_nat (length (log_file (map (encode_record sers) good))) < Q_MAX →
  make_dataset (iter_list (good ++ bad :: rest)) output sers index_path fs
  = (<[output := log_file (map (encode_record sers) good)]> fs, inl IndexError)
  ∧ (default_index_path output index_path ≠ output →
     <[output := log_file (map (encode_record sers) good)]> fs
       !! default_index_path output index_path
     = fs !! default_index_path output index_path).
Proof.
  intros Hgood Hbad Hsz. split; [|intros Hp; by rewrite lookup_insert_ne].
  unfold make_dataset.
  io_step ltac:(reflexivity).
  io_step ltac:(apply write_plain).
  rewrite content_insert, insert_insert_eq.
  change (write_at [] 0 RESERVED_BYTES)
    with ([] ++ [] ++ RESERVED_BYTES ++ drop (0 + length RESERVED_BYTES) []).
  rewrite drop_nil, app_nil_r. cbn [app].
  unfold iter_list. io_step ltac:(reflexivity).
  erewrite bind_inl; [done|].
  rewrite map_app, foldM_app. cbn [map].
  erewrite bind_inr; cycle 1.
  { rewrite <- log_file_nil at 2.
    apply (build_loop output sers (λ _, True) ltac:(done)
             (map ret good) good (Forall2_ret good) Hgood _ [] []);
      [done | by rewrite log_file_nil, lookup_insert_eq | exact Hsz]. }
  cbn [foldM app]. io_simpl. rewrite insert_insert_eq.
  erewrite bind_inl; [done|].
  io_step ltac:(reflexivity).
  erewrite bind_inl; [done|].
  apply serialize_items_short. lia.
Qed.

Lemma make_dataset_stops_at_short_record_witness :
  make_dataset (iter_list ([[VInt 1; VStr "a"]] ++ [VInt 2] :: []))
               "data.bin" [enc_int; enc_str] None ∅
  = (<["data.bin" := log_file (map (encode_record [enc_int; enc_str])
                                   [[VInt 1; VStr "a"]])]> ∅,
     inl IndexError).
Proof.
  destruct (make_dataset_stops_at_short_record "data.bin" [enc_int; enc_str]
              [[VInt 1; VStr "a"]] [VInt 2] [] None ∅) as [H _].
  - repeat constructor.
  - cbn. lia.
  - vm_compute. reflexivity.
  - exact H.
Defined.

(** X10 — a build whose index path is the output path. [make_dataset]
    does not compare the two paths; it succeeds, and the file it leaves
    there is the index file: the log it wrote first is gone. This is the
    case of the default index path of an output that ends in [.idx]. *)
Theorem make_dataset_index_over_log {V} (output : string)
    (sers : list (V → list byte)) (records : list (list V))
    (index_path : option string) (fs : fsys) :
  default_index_path output index_path = output →
  Forall (λ r, (length sers ≤ length r)%nat) records →
  Z.of_nat (length (log_file (map (encode_record sers) records))) < Q_MAX →
  Z.of_nat (length records) < Q_MAX →
  make_dataset (iter_list records) output sers index_path fs
  = (<[output := index_file (map (block_offset (map (encode_record sers) records))
                                 (seq 0 (length records)))]> fs,
     inr (output, output)).
Proof.
  intros Hp Hlen Hsz Hn.
  rewrite (make_dataset_files output sers (λ _, True) ltac:(done)
             (iter_list records) (map ret records) records index_path fs);
    [| done | done | apply Forall2_ret | done | done | done].
  rewrite Hp. by rewrite insert_insert_eq.
Qed.

Lemma make_dataset_index_over_log_witness :
  make_dataset (iter_list scenario_records) "data.idx" [enc_int; enc_str]
               None ∅
  = (<["data.idx" :=
         index_file (map (block_offset (map (encode_record [enc_int; enc_str])
                                            scenario_records))
                         (seq 0 (length scenario_records)))]> ∅,
     inr ("data.idx", "data.idx")).
Proof.
  apply (make_dataset_index_over_log "data.idx" [enc_int; enc_str]
           scenario_records None ∅).
  - vm_compute. reflexivity.
  - repeat constructor.
  - vm_compute. reflexivity.
  - vm_compute. reflexivity.
Defined.

Lemma block_at_app_l (blocks : list (list (list byte))) ps (j : nat) :
  (j < length blocks)%nat → block_at (blocks ++ [ps]) j = block_at blocks j.
Proof. intros H. unfold block_at. by rewrite lookup_app_l. Qed.

(** X11 — append, then read. On a well-formed dataset of [n] records,
    with serializers and deserializers that bring the items back,
    [append(items)] succeeds; then the length is [n + 1], position [n]
    reads [items], and every position before reads the record it read. *)
Theorem append_then_getitem {V} (k : nat) (fs : fsys)
    (self : IndexedRecordDataset V V)
    (blocks : list (list (list byte))) (live : list nat)
    (sers : list (V → list byte)) (decs : list (list byte → V))
    (items : list V) :
  pair_ok k fs (path self) (index self) blocks live →
  serializers self = Some sers → deserializers self = Some decs →
  length sers = k → length decs = k → length items = k →
  field_inverse sers decs items →
  Z.of_nat (length (log_file (kept_blocks blocks live
                              ++ [encode_record sers items]))) < SSIZE_MAX →
  Z.of_nat (length live) + 1 < SSIZE_MAX →
  ∃ fs',
    append self items fs = (fs', inr tt)
    ∧ __len__ self fs' = (fs', inr (Z.of_nat (length live) + 1))
    ∧ __getitem__ self (Z.of_nat (length live)) fs' = (fs', inr items)
    ∧ ∀ i : nat, (i < length live)%nat →
        ∃ r, __getitem__ self (Z.of_nat i) fs = (fs, inr r)
             ∧ __getitem__ self (Z.of_nat i) fs' = (fs', inr r).
Proof.
  intros Hok Hs Hd Hks Hkd Hki Hinv Hsz Hn.
  destruct (append_pair_ok k fs self blocks live Hok sers items Hs Hks
              ltac:(lia) Hsz Hn) as (fs' & Hrun & Hok' & _).
  exists fs'. split; [exact Hrun|]. split; [|split].
  - rewrite (pair_ok_len _ _ self _ _ Hok'), length_app. cbn [length].
    do 2 f_equal. lia.
  - rewrite (pair_ok_getitem _ _ self _ _ Hok' decs (length live)
               (length (kept_blocks blocks live)) (encode_record sers items));
      [| done | done | |].
    + rewrite decode_encode_record; [done | lia | lia | done].
    + rewrite lookup_app_r by lia. by rewrite Nat.sub_diag.
    + rewrite lookup_app_r by lia. by rewrite Nat.sub_diag.
  - intros i Hi.
    destruct (lookup_lt_is_Some_2 live i Hi) as [j Hj].
    assert (Hjl : j ∈ live) by (eapply list_elem_of_lookup_2; eauto).
    exists (decode_record decs (block_at blocks j)). split.
    + eapply pair_ok_getitem_live; eauto.
    + rewrite (pair_ok_getitem_live _ _ self _ _ decs i j Hok' Hd Hkd)
        by (by rewrite lookup_app_l).
      rewrite (kept_blocks_elem _ _ _ _ _ Hok j Hjl).
      rewrite block_at_app_l; [done|].
      pose proof (ok_live _ _ _ _ _ _ Hok) as Hl.
      rewrite Forall_forall in Hl. by apply Hl.
Qed.

Lemma append_then_getitem_witness :
  ∃ fs',
    append scenario_dataset [VInt 4; VStr "dddd"] scenario_built = (fs', inr tt)
    ∧ __getitem__ scenario_dataset (Z.of_nat (length [0; 1; 2]%nat)) fs'
      = (fs', inr [VInt 4; VStr "dddd"]).
Proof.
  destruct (append_then_getitem 2 scenario_built scenario_dataset
              (map (encode_record [enc_int; enc_str]) scenario_records)
              [0; 1; 2]%nat [enc_int; enc_str] [dec_int; dec_str]
              [VInt 4; VStr "dddd"] scenario_built_pair_ok
              eq_refl eq_refl eq_refl eq_refl eq_refl)
    as (fs' & H1 & _ & H2 & _).
  - intros i e d v He Hd Hv.
    destruct i as [|[|i]]; cbn in He, Hd, Hv; [| |done];
      injection He as <-; injection Hd as <-; injection Hv as <-; reflexivity.
  - vm_compute. reflexivity.
  - vm_compute. reflexivity.
  - exists fs'. split; [exact H1 | exact H2].
Defined.

Lemma log_base_restart (fs : fsys) (log : string) (offs : list Z) :
  fs !! log = None ∨ offs = [] → log_base fs log offs = RESERVED_BYTES.
Proof.
  unfold log_base. intros [H | ->].
  - by rewrite H.
  - destruct (fs !! log); [|done]. by rewrite bool_decide_true.
Qed.

(** X12 — what a restarted log and its index hold. When [append] starts
    the log anew (no log file, or an index without entries), the log
    becomes the reserved bytes and the block of the new record, and the
    offset [1024] is added after the offsets the index held: the new
    record reads back at position [n], whatever the log held before.
    If the log file was missing while the index still listed [n >= 1]
    offsets, these stay in the index as they were. *)
Theorem append_restart_reads_back {V} (fs : fsys)
    (self : IndexedRecordDataset V V) (offs : list Z)
    (sers : list (V → list byte)) (decs : list (list byte → V))
    (items : list V) :
  index_holds fs (index self) offs →
  fs !! path self = None ∨ offs = [] →
  path self ≠ index self →
  serializers self = Some sers → deserializers self = Some decs →
  length decs = length sers → length items = length sers →
  field_inverse sers decs items →
  Z.of_nat (length (RESERVED_BYTES
                    ++ encode_block (encode_record sers items))) < SSIZE_MAX →
  Z.of_nat (length offs) + 1 < SSIZE_MAX →
  ∃ fs',
    append self items fs = (fs', inr tt)
    ∧ fs' !! path self
      = Some (RESERVED_BYTES ++ encode_block (encode_record sers items))
    ∧ fs' !! index self = Some (index_file (offs ++ [Z.of_nat RESERVED_SPACE]))
    ∧ __len__ self fs' = (fs', inr (Z.of_nat (length offs) + 1))
    ∧ __getitem__ self (Z.of_nat (length offs)) fs' = (fs', inr items)
    ∧ ∀ (i : nat) o, offs !! i = Some o → is_u64 o →
        IndexFile.__getitem__ (index self) (Z.of_nat i) fs' = (fs', inr o).
Proof.
  intros Hidx Hre Hp Hs Hd Hkd Hki Hinv Hsz Hn.
  pose proof (log_base_restart fs (path self) offs Hre) as Hbase.
  pose proof (append_files self fs offs Hidx sers items Hs Hp ltac:(lia))
    as Hrun.
  rewrite Hbase in Hrun. rewrite length_RESERVED_BYTES in Hrun.
  eexists. split; [apply Hrun; unfold SSIZE_MAX, Q_MAX in *; lia|].
  set (fs' := <[path self := RESERVED_BYTES
                             ++ encode_block (encode_record sers items)]> _).
  assert (Hlog : fs' !! path self
                 = Some (RESERVED_BYTES
                         ++ encode_block (encode_record sers items)))
    by apply lookup_insert_eq.
  assert (Hi : fs' !! index self
               = Some (index_file (offs ++ [Z.of_nat 1024]))).
  { unfold fs'. rewrite lookup_insert_ne by done. apply lookup_insert_eq. }
  assert (Hlen : Z.of_nat (length (offs ++ [Z.of_nat 1024])) < SSIZE_MAX)
    by (rewrite length_app; simpl; lia).
  split; [exact Hlog|]. split; [exact Hi|]. split; [|split].
  - unfold __len__.
    rewrite (bind_inr _ _ _ _ _ (len_index_file _ _ _ Hi Hlen)).
    rewrite length_app. cbn [length]. unfold IndexFile.py_len.
    destruct (Z.ltb_spec (Z.of_nat (length offs + 1)) SSIZE_MAX); [|lia].
    unfold ret. do 2 f_equal. lia.
  - unfold __getitem__. rewrite Hd.
    erewrite bind_inr; cycle 1.
    { apply (getitem_index_file _ _ _ (length offs) (Z.of_nat 1024) Hi Hlen).
      - rewrite lookup_app_r by lia. by rewrite Nat.sub_diag.
      - by vm_compute. }
    rewrite <- length_RESERVED_BYTES.
    rewrite (read_record_block (path self) fs' decs
               (encode_record sers items) RESERVED_BYTES []).
    + rewrite decode_encode_record; [done | lia | lia | done].
    + by rewrite app_nil_r.
    + by rewrite app_nil_r.
    + rewrite length_encode_record; lia.
  - intros i o Ho Hu.
    apply (getitem_index_file _ _ _ i o Hi Hlen); [|done].
    rewrite lookup_app_l; [done|]. eapply lookup_lt_Some; eauto.
Qed.

Lemma append_restart_reads_back_witness :
  ∃ fs',
    append scenario_dataset [VInt 4; VStr "dddd"] (<["data.bin" := [x01]]> ∅)
    = (fs', inr tt)
    ∧ fs' !! path scenario_dataset
      = Some (RESERVED_BYTES
              ++ encode_block (encode_record [enc_int; enc_str]
                                             [VInt 4; VStr "dddd"]))
    ∧ __getitem__ scenario_dataset (Z.of_nat (length (@nil Z))) fs'
      = (fs', inr [VInt 4; VStr "dddd"]).
Proof.
  destruct (append_restart_reads_back (<["data.bin" := [x01]]> ∅)
              scenario_dataset [] [enc_int; enc_str] [dec_int; dec_str]
              [VInt 4; VStr "dddd"])
    as (fs' & H1 & H2 & _ & _ & H3 & _).
  - split; [vm_compute; reflexivity | right; split; vm_compute; reflexivity].
  - by right.
  - discriminate.
  - reflexivity.
  - reflexivity.
  - reflexivity.
  - reflexivity.
  - intros i e d v He Hd Hv.
    destruct i as [|[|i]]; cbn in He, Hd, Hv; [| |done];
      injection He as <-; injection Hd as <-; injection Hv as <-; reflexivity.
  - vm_compute. reflexivity.
  - vm_compute. reflexivity.
  - exists fs'. split; [exact H1|]. split; [exact H2 | exact H3].
Defined.

(** X13 — iterating a dataset. On a well-formed dataset with
    deserializers, the iteration gives as many records as the index
    lists, and the [i]-th of them is the record [__getitem__(i)]
    returns; the file system is not changed. *)
Theorem dataset_iter_is_getitem_in_order {R W} (k : nat) (fs : fsys)
    (self : IndexedRecordDataset R W)
    (blocks : list (list (list byte))) (live : list nat)
    (decs : list (list byte → R)) :
  pair_ok k fs (path self) (index self) blocks live →
  deserializers self = Some decs → length decs = k →
  ∃ rs,
    (let* it := __iter__ self in collect it) fs = (fs, inr rs)
    ∧ length rs = length live
    ∧ ∀ (i : nat) r, rs !! i = Some r →
        __getitem__ self (Z.of_nat i) fs = (fs, inr r).
Proof.
  intros Hok Hd Hk.
  set (g := λ i : nat,
         decode_record decs (block_at blocks (default 0%nat (live !! i)))).
  assert (Hget : ∀ i : nat, (i < length live)%nat →
            __getitem__ self (Z.of_nat i) fs = (fs, inr (g i))).
  { intros i Hi. destruct (lookup_lt_is_Some_2 live i Hi) as [j Hj].
    unfold g. rewrite Hj. eapply pair_ok_getitem_live; eauto. }
  exists (map g (seq 0 (length live))). split; [|split].
  - assert (Hit : __iter__ self fs
                  = (fs, inr (map (λ i, __getitem__ self (Z.of_nat i))
                                  (seq 0 (length live))))).
    { unfold __iter__.
      io_step ltac:(apply (pair_ok_len _ _ self _ _ Hok)).
      by rewrite Nat2Z.id. }
    io_step ltac:(exact Hit).
    apply collect_map. intros i Hi. apply elem_of_seq in Hi.
    apply Hget. lia.
  - by rewrite length_map, length_seq.
  - intros i r Hi. apply list_lookup_fmap_Some in Hi as [i' [-> Hi']].
    apply lookup_seq in Hi' as [-> Hi']. cbn [Nat.add]. by apply Hget.
Qed.

Lemma dataset_iter_is_getitem_in_order_witness :
  ∃ rs,
    (let* it := __iter__ scenario_dataset in collect it) scenario_built
    = (scenario_built, inr rs)
    ∧ length rs = length [0; 1; 2]%nat.
Proof.
  destruct (dataset_iter_is_getitem_in_order 2 scenario_built scenario_dataset
              (map (encode_record [enc_int; enc_str]) scenario_records)
              [0; 1; 2]%nat [dec_int; dec_str] scenario_built_pair_ok
              eq_refl eq_refl)
    as (rs & H1 & H2 & _).
  exists rs. split; [exact H1 | exact H2].
Defined.

(** X14 — compacting a dataset from which nothing was removed. When the
    index lists every block of the log in the order of the log, as after
    a build, [defrag] writes a log and an index that are, byte for byte,
    the log and the index of the source. *)
Theorem defrag_without_removals_copies {R W} (k : nat) (fs : fsys)
    (self : IndexedRecordDataset R W)
    (blocks : list (list (list byte)))
    (decs : list (list byte → R)) (out : string) :
  pair_ok k fs (path self) (index self) blocks (seq 0 (length blocks)) →
  deserializers self = Some decs → length decs = k →
  out ≠ path self → out ≠ index self →
  default_index_path out None ≠ out →
  ∃ fs',
    defrag self out fs = (fs', inr (out, default_index_path out None))
    ∧ fs' !! out = fs !! path self
    ∧ fs' !! default_index_path out None = fs !! index self.
Proof.
  intros Hok Hd Hk Ho1 Ho2 Ho3. eexists.
  split; [eapply defrag_files; eauto|].
  assert (Hlb : live_blocks blocks (seq 0 (length blocks)) = blocks)
    by apply blocks_by_position.
  split.
  - rewrite lookup_insert_ne by done. rewrite lookup_insert_eq, Hlb.
    symmetry. apply (ok_log _ _ _ _ _ _ Hok).
  - rewrite lookup_insert_eq, Hlb, length_seq.
    symmetry. apply (ok_index _ _ _ _ _ _ Hok).
Qed.

Lemma defrag_without_removals_copies_witness :
  ∃ fs',
    defrag scenario_dataset "out.bin" scenario_built
    = (fs', inr ("out.bin", default_index_path "out.bin" None))
    ∧ fs' !! "out.bin" = scenario_built !! path scenario_dataset.
Proof.
  assert (H1 : "out.bin" ≠ path scenario_dataset) by discriminate.
  assert (H2 : "out.bin" ≠ index scenario_dataset) by discriminate.
  assert (H3 : default_index_path "out.bin" None ≠ "out.bin")
    by (vm_compute; discriminate).
  destruct (defrag_without_removals_copies 2 scenario_built scenario_dataset
              (map (encode_record [enc_int; enc_str]) scenario_records)
              [dec_int; dec_str] "out.bin" scenario_built_pair_ok
              eq_refl eq_refl H1 H2 H3)
    as (fs' & G1 & G2 & _).
  exists fs'. split; [exact G1 | exact G2].
Defined.

(** X15 — compacting twice. The pair that [defrag] makes has no removed
    record left in it: a second [defrag], of the dataset over the new
    pair, gives files equal to those of the first. *)
Theorem defrag_twice_is_defrag_once {R W} (k : nat) (fs : fsys)
    (self : IndexedRecordDataset R W)
    (blocks : list (list (list byte))) (live : list nat)
    (decs : list (list byte → R)) (out out2 : string) :
  pair_ok k fs (path self) (index self) blocks live →
  deserializers self = Some decs → length decs = k →
  out ≠ path self → out ≠ index self →
  default_index_path out None ≠ out →
  out2 ≠ out → out2 ≠ default_index_path out None →
  default_index_path out2 None ≠ out2 →
  ∃ fs1 fs2,
    defrag self out fs = (fs1, inr (out, default_index_path out None))
    ∧ defrag (__init__ out (Some decs) (serializers self) None) out2 fs1
      = (fs2, inr (out2, default_index_path out2 None))
    ∧ fs2 !! out2 = fs1 !! out
    ∧ fs2 !! default_index_path out2 None
      = fs1 !! default_index_path out None.
Proof.
  intros Hok Hd Hk Ho1 Ho2 Ho3 Hp1 Hp2 Hp3.
  destruct (defrag_pair_ok k fs self blocks live decs out Hok Hd Hk Ho1 Ho2 Ho3)
    as (fs1 & Hrun1 & Hok1 & _).
  set (new := __init__ out (Some decs) (serializers self) None).
  assert (Hnew : pair_ok k fs1 (path new) (index new)
                   (live_blocks blocks live)
                   (seq 0 (length (live_blocks blocks live)))).
  { unfold live_blocks. rewrite length_map. exact Hok1. }
  destruct (defrag_without_removals_copies k fs1 new (live_blocks blocks live)
              decs out2 Hnew eq_refl Hk Hp1 Hp2 Hp3)
    as (fs2 & Hrun2 & Hlog & Hidx).
  exists fs1, fs2. split; [exact Hrun1|]. split; [exact Hrun2|].
  split; [exact Hlog | exact Hidx].
Qed.

Lemma defrag_twice_is_defrag_once_witness :
  ∃ fs1 fs2,
    defrag scenario_dataset "out.bin" scenario_removed
    = (fs1, inr ("out.bin", default_index_path "out.bin" None))
    ∧ defrag (__init__ "out.bin" (Some [dec_int; dec_str])
                       (serializers scenario_dataset) None) "two.bin" fs1
      = (fs2, inr ("two.bin", default_index_path "two.bin" None))
    ∧ fs2 !! "two.bin" = fs1 !! "out.bin".
Proof.
  assert (H1 : "out.bin" ≠ path scenario_dataset) by discriminate.
  assert (H2 : "out.bin" ≠ index scenario_dataset) by discriminate.
  assert (H3 : default_index_path "out.bin" None ≠ "out.bin")
    by (vm_compute; discriminate).
  assert (H4 : "two.bin" ≠ "out.bin") by discriminate.
  assert (H5 : "two.bin" ≠ default_index_path "out.bin" None)
    by (vm_compute; discriminate).
  assert (H6 : default_index_path "two.bin" None ≠ "two.bin")
    by (vm_compute; discriminate).
  destruct (defrag_twice_is_defrag_once 2 scenario_removed scenario_dataset
              (map (encode_record [enc_int; enc_str]) scenario_records)
              [2; 1]%nat [dec_int; dec_str] "out.bin" "two.bin"
              scenario_removed_pair_ok eq_refl eq_refl H1 H2 H3 H4 H5 H6)
    as (fs1 & fs2 & G1 & G2 & G3 & _).
  exists fs1, fs2. split; [exact G1|]. split; [exact G2 | exact G3].
Defined.
